(** * LevelDB table cache with multi-directory resolution

    A shallow embedding of [db/table_cache.cc] (TableCache::FindTable,
    NewIterator, Get, Evict, DeleteEntry, UnrefEntry) together with models of
    the collaborators it calls: the filesystem environment, the table parser,
    the reference-counted handle cache and the iterator cleanup list. *)

From Stdlib Require Import Ascii String NArith DecimalString.
From stdpp Require Import gmap strings list.

Open Scope string_scope.
Open Scope list_scope.

(** ** Status (leveldb/status.h) *)

(** Modelled from the spec: [leveldb/status.h] is not part of the sources at
    hand. The codes of a failure: not found, format error, I/O error and the
    like. *)
Inductive Code := kNotFound | kCorruption | kNotSupported | kInvalidArgument | kIOError.

(** A status that is not OK: its code and message. *)
Record Failure := MkFailure { code : Code; message : string }.

(** Modelled from the spec: a status is OK or a failure. *)
Inductive Status :=
  | OK
  | NotOK (e : Failure).

Definition ok (s : Status) : bool :=
  match s with OK => true | NotOK _ => false end.

Definition NotFound (msg : string) : Failure := MkFailure kNotFound msg.

(** A fallible call of a collaborator: the C++ code returns a [Status] and
    stores the object through an out-pointer, which is left null on failure. *)
Inductive Result (A : Type) :=
  | Ok (a : A)
  | Err (e : Failure).
Arguments Ok {A} a.
Arguments Err {A} e.

Definition status_of {A} (r : Result A) : Status :=
  match r with Ok _ => OK | Err e => NotOK e end.

(** ** File names (db/filename.h) and the cache key (util/coding.h) *)

Definition Slice := string.

(** Modelled from the spec: [db/filename.cc] is not part of the sources at
    hand. The current convention is "<number>.ldb" and the legacy convention
    "<number>.sst", both under the candidate directory and the same numeric
    identifier, zero-padded by the engine's file name builder. *)
Definition decimal6 (number : N) : string :=
  let digits := NilEmpty.string_of_uint (N.to_uint number) in
  String.concat EmptyString (replicate (6 - String.length digits) "0") +:+ digits.

Definition MakeFileName (dbname : string) (number : N) (suffix : string) : string :=
  dbname +:+ "/" +:+ decimal6 number +:+ "." +:+ suffix.

Definition TableFileName (dbname : string) (number : N) : string :=
  MakeFileName dbname number "ldb".

Definition SSTTableFileName (dbname : string) (number : N) : string :=
  MakeFileName dbname number "sst".

(** Modelled from the spec: [util/coding.h] is not part of the sources at
    hand. The cache key is a fixed-width (8 byte) big-endian encoding of the
    64-bit file identifier. *)
Definition byte_at (value : N) (i : nat) : ascii :=
  ascii_of_N ((value / 2 ^ (8 * N.of_nat i)) mod 256)%N.

Definition EncodeFixed64 (value : N) : Slice :=
  string_of_list_ascii (map (byte_at value) [7; 6; 5; 4; 3; 2; 1; 0]%nat).

(** ** Options (the two fields of leveldb/options.h that FindTable reads) *)

Record Options := {
  enable_multi_disk : bool;
  data_dirs : list string;
}.

(** ** The directory search path of FindTable (table_cache.cc, lines 53-71) *)

(** The lambda [push_unique_dir], with the captured vector made explicit. *)
Definition push_unique_dir (search_dirs : list string) (dir : string) : list string :=
  if String.eqb dir EmptyString then search_dirs
  else if existsb (fun existing => String.eqb existing dir) search_dirs
       then search_dirs
       else search_dirs ++ [dir].

(** [file_number] is a [uint64_t], and nothing below depends on its bound.
    Indices are [size_t]; [file_number % n] is below [n] and [start + i]
    below [2 * n], far from the word size, so the index arithmetic is written
    on [nat] without wrap-around. *)
Definition search_dirs (options_ : Options) (dbname_ : string) (file_number : N)
  : list string :=
  let alternates :=
    if enable_multi_disk options_ && negb (bool_decide (data_dirs options_ = [])) then
      let n := length (data_dirs options_) in
      let start := N.to_nat (file_number mod N.of_nat n) in
      fold_left
        (fun acc i =>
           push_unique_dir acc
             (nth ((start + i) mod n) (data_dirs options_) EmptyString))
        (seq 0 n) []
    else [] in
  push_unique_dir alternates dbname_.

(** The search path the way the specification words it: start at index
    [identifier mod N], take [N] directories in circular order, drop every
    name that repeats, append the primary directory if not already present;
    only the primary directory when multi-directory mode is off or no
    alternate is configured. *)
Fixpoint drop_repeats (seen l : list string) : list string :=
  match l with
  | [] => []
  | d :: l' =>
      if bool_decide (d ∈ seen) then drop_repeats seen l'
      else d :: drop_repeats (d :: seen) l'
  end.

Definition circular_from (start : nat) (dirs : list string) : list string :=
  map (fun i => nth ((start + i) mod length dirs) dirs EmptyString)
      (seq 0 (length dirs)).

Definition spec_search_path (options_ : Options) (primary : string) (identifier : N)
  : list string :=
  if enable_multi_disk options_ && negb (bool_decide (data_dirs options_ = [])) then
    let count := length (data_dirs options_) in
    let start := N.to_nat (identifier mod N.of_nat count) in
    let uniq := drop_repeats [] (circular_from start (data_dirs options_)) in
    if bool_decide (primary ∈ uniq) then uniq else uniq ++ [primary]
  else [primary].

(** ** Collaborators: files, tables, iterators *)

(** Modelled from the spec: [leveldb/env.h] is not part of the sources at
    hand. An open random-access file, known by the name it was opened
    under. *)
Record RandomAccessFile := { file_name : string }.

Record ReadOptions := { verify_checksums : bool; fill_cache : bool }.

(** Modelled from the spec: the table parser ([table/table.cc]) is not part
    of the sources at hand. A parsed table exposes a sequential sequence of
    its records and a point lookup that returns a status and hands zero or
    one record to the visitor. *)
Record Table := {
  table_file : RandomAccessFile;
  table_records : ReadOptions → list (Slice * Slice);
  InternalGet : ReadOptions → Slice → Status * option (Slice * Slice);
}.

Record TableAndFile := { file : RandomAccessFile; table : Table }.

(** Every call the table cache makes to a collaborator is recorded. *)
Inductive Event :=
  | EvNewRandomAccessFile (fname : string)
  | EvTableOpen (f : RandomAccessFile) (file_size : N)
  | EvDeleteFile (f : RandomAccessFile)
  | EvDeleteTable (t : Table)
  | EvTableNewIterator (t : Table)
  | EvInternalGet (t : Table) (k : Slice)
  | EvCacheLookup (key : Slice)
  | EvCacheInsert (key : Slice) (charge : nat)
  | EvCacheRelease (id : nat)
  | EvCacheErase (key : Slice).

(** The events that touch the filesystem or the table parser. *)
Definition is_io (ev : Event) : bool :=
  match ev with
  | EvNewRandomAccessFile _ | EvTableOpen _ _ | EvDeleteFile _
  | EvDeleteTable _ | EvTableNewIterator _ | EvInternalGet _ _ => true
  | EvCacheLookup _ | EvCacheInsert _ _ | EvCacheRelease _ | EvCacheErase _ => false
  end.

Definition is_release (id : nat) (ev : Event) : bool :=
  match ev with EvCacheRelease id' => Nat.eqb id id' | _ => false end.

Definition count_events (p : Event → bool) (tr : list Event) : nat :=
  length (List.filter p tr).

(** Modelled from the spec: the filesystem provider [Env] opens a file for
    random access or fails, and the static [Table::Open] validates and loads
    the table of an open file with its expected size or fails. *)
Record Env := {
  NewRandomAccessFile : string → Result RandomAccessFile;
  Table_Open : Options → RandomAccessFile → N → Result Table;
}.

(** [static void DeleteEntry(const Slice& key, void* value)]: the parsed
    table is deleted first, then the file. *)
Definition DeleteEntry (key : Slice) (value : TableAndFile) : list Event :=
  [EvDeleteTable (table value); EvDeleteFile (file value)].

(** ** The handle cache (leveldb/cache.h) *)

(** Modelled from the spec: the cache ([util/cache.cc]) is not part of the
  sources at hand. It is a capacity-bounded, reference-counted associative
  cache keyed by byte strings; the destructor attached to an entry runs
  exactly once, when the last reference is dropped after the entry was
  evicted or erased. An entry is evicted under capacity pressure only when
  no handle to it is outstanding; erasing removes the cache's own reference
  and defers destruction to whichever release drops the last one. *)
Module Cache.
Section WithValue.
Context {V : Type}.

(** Modelled from the spec: a reference handle. It carries the part of an
    entry that never changes after insertion and gives direct access to it. *)
Record Handle := {
  handle_id : nat;
  handle_key : Slice;
  handle_value : V;
  handle_charge : nat;
  handle_deleter : Slice → V → list Event;
}.

(** Modelled from the spec: the state of the cache. *)
Record t := {
  capacity_ : nat;
  usage_ : nat;
  next_id : nat;
  table_ : gmap Slice Handle;   (* the entry of record of every key *)
  refs_ : gmap nat nat;         (* reference count of every live entry,
                                   the cache's own reference included *)
  lru_ : list Handle;           (* cached entries without outstanding
                                   handle, least recently used first *)
}.

(** Modelled from the spec: an empty cache with room for [capacity]. *)
Definition NewLRUCache (capacity : nat) : t :=
  {| capacity_ := capacity; usage_ := 0; next_id := 0;
     table_ := ∅; refs_ := ∅; lru_ := [] |}.

(** Modelled from the spec: [Value(entry-ref)] gives the value inserted. *)
Definition Value (h : Handle) : V := handle_value h.

Definition in_cache (c : t) (h : Handle) : bool :=
  match table_ c !! handle_key h with
  | Some h' => Nat.eqb (handle_id h') (handle_id h)
  | None => false
  end.

Definition LRU_Remove (h : Handle) (lru : list Handle) : list Handle :=
  List.filter (fun h' => negb (Nat.eqb (handle_id h') (handle_id h))) lru.

Definition Ref (c : t) (h : Handle) : t :=
  {| capacity_ := capacity_ c; usage_ := usage_ c; next_id := next_id c;
     table_ := table_ c;
     refs_ := alter S (handle_id h) (refs_ c);
     lru_ := LRU_Remove h (lru_ c) |}.

(** Drops one reference; the last one runs the destructor. *)
Definition Unref (c : t) (h : Handle) : t * list Event :=
  match refs_ c !! handle_id h with
  | None => (c, [])
  | Some refs =>
      if Nat.leb refs 1 then
        ({| capacity_ := capacity_ c; usage_ := usage_ c; next_id := next_id c;
            table_ := table_ c;
            refs_ := delete (handle_id h) (refs_ c);
            lru_ := lru_ c |},
         handle_deleter h (handle_key h) (handle_value h))
      else
        ({| capacity_ := capacity_ c; usage_ := usage_ c; next_id := next_id c;
            table_ := table_ c;
            refs_ := <[handle_id h := refs - 1]> (refs_ c);
            lru_ := if in_cache c h && Nat.eqb (refs - 1) 1
                    then lru_ c ++ [h] else lru_ c |},
         [])
  end.

(** Finishes removing an entry that has already left [table_]. *)
Definition FinishErase (c : t) (h : Handle) : t * list Event :=
  Unref {| capacity_ := capacity_ c; usage_ := usage_ c - handle_charge h;
           next_id := next_id c; table_ := table_ c; refs_ := refs_ c;
           lru_ := LRU_Remove h (lru_ c) |} h.

(** Modelled from the spec: [Lookup(key)] returns a new reference to the
    entry of the key, or nothing. *)
Definition Lookup (c : t) (key : Slice) : option Handle * t :=
  match table_ c !! key with
  | Some h => (Some h, Ref c h)
  | None => (None, c)
  end.

(** Modelled from the spec: [Release(entry-ref)] drops one reference. *)
Definition Release (c : t) (h : Handle) : t * list Event := Unref c h.

Definition remove_key (c : t) (key : Slice) : t :=
  {| capacity_ := capacity_ c; usage_ := usage_ c; next_id := next_id c;
     table_ := delete key (table_ c); refs_ := refs_ c; lru_ := lru_ c |}.

(** Modelled from the spec: [Erase(key)] removes the entry of the key at
    once and drops the reference the cache held. *)
Definition Erase (c : t) (key : Slice) : t * list Event :=
  match table_ c !! key with
  | Some h => FinishErase (remove_key c key) h
  | None => (c, [])
  end.

(** Evicts unreferenced entries, oldest first, until [charge] more fits. *)
Fixpoint make_room (c : t) (charge : nat) (lru : list Handle) : t * list Event :=
  match lru with
  | [] => (c, [])
  | old :: lru' =>
      if Nat.ltb (capacity_ c) (usage_ c + charge) then
        let '(c1, evs1) := FinishErase (remove_key c (handle_key old)) old in
        let '(c2, evs2) := make_room c1 charge lru' in
        (c2, evs1 ++ evs2)
      else (c, [])
  end.

(** Modelled from the spec: [Insert(key, value, cost, destructor)] replaces
    the entry of the key, makes room, and returns a reference to the new
    entry, which the cache references too. *)
Definition Insert (c : t) (key : Slice) (value : V) (charge : nat)
    (deleter : Slice → V → list Event) : Handle * t * list Event :=
  let '(c1, evs1) := Erase c key in
  let '(c2, evs2) := make_room c1 charge (lru_ c1) in
  let h := {| handle_id := next_id c2; handle_key := key; handle_value := value;
              handle_charge := charge; handle_deleter := deleter |} in
  (h,
   {| capacity_ := capacity_ c2; usage_ := usage_ c2 + charge;
      next_id := S (next_id c2);
      table_ := <[key := h]> (table_ c2);
      refs_ := <[handle_id h := 2]> (refs_ c2);
      lru_ := lru_ c2 |},
   evs1 ++ evs2).

(** Every handle the cache can hand out was numbered before [next_id]. *)
Definition ids_below_next (c : t) : Prop :=
  map_Forall (λ _ h, handle_id h < next_id c) (table_ c).

End WithValue.
Arguments Handle : clear implicits.
Arguments t : clear implicits.
End Cache.

(** ** State and effects of the table cache *)

(** The members of a [TableCache] that never change after construction. *)
Record TableCache := {
  env_ : Env;
  dbname_ : string;
  options_ : Options;
}.

(** The mutable part: the handle cache [cache_], the record of the calls the
    table cache made to its collaborators so far, and the record of what the
    entry destructors run by the handle cache did. *)
Record State := {
  cache_ : Cache.t TableAndFile;
  trace : list Event;
  reclaimed : list Event;
}.

Definition M (A : Type) : Type := State → A * State.

#[global] Instance M_ret : MRet M := λ A a st, (a, st).
#[global] Instance M_bind : MBind M :=
  λ A B k m st, let '(a, st') := m st in k a st'.

Definition emit (evs : list Event) (st : State) : State :=
  {| cache_ := cache_ st; trace := trace st ++ evs; reclaimed := reclaimed st |}.

Definition env_NewRandomAccessFile (tc : TableCache) (fname : string)
  : M (Result RandomAccessFile) :=
  λ st, (NewRandomAccessFile (env_ tc) fname, emit [EvNewRandomAccessFile fname] st).

Definition table_Open (tc : TableCache) (f : RandomAccessFile) (file_size : N)
  : M (Result Table) :=
  λ st, (Table_Open (env_ tc) (options_ tc) f file_size, emit [EvTableOpen f file_size] st).

Definition delete_file (f : RandomAccessFile) : M unit :=
  λ st, (tt, emit [EvDeleteFile f] st).

Definition cache_Lookup (key : Slice) : M (option (Cache.Handle TableAndFile)) :=
  λ st, let '(h, c) := Cache.Lookup (cache_ st) key in
        (h, {| cache_ := c; trace := trace st ++ [EvCacheLookup key];
               reclaimed := reclaimed st |}).

Definition cache_Insert (key : Slice) (value : TableAndFile) (charge : nat)
    (deleter : Slice → TableAndFile → list Event) : M (Cache.Handle TableAndFile) :=
  λ st, let '(h, c, evs) := Cache.Insert (cache_ st) key value charge deleter in
        (h, {| cache_ := c; trace := trace st ++ [EvCacheInsert key charge];
               reclaimed := reclaimed st ++ evs |}).

Definition cache_Release (h : Cache.Handle TableAndFile) : M unit :=
  λ st, let '(c, evs) := Cache.Release (cache_ st) h in
        (tt, {| cache_ := c;
                trace := trace st ++ [EvCacheRelease (Cache.handle_id h)];
                reclaimed := reclaimed st ++ evs |}).

Definition cache_Erase (key : Slice) : M unit :=
  λ st, let '(c, evs) := Cache.Erase (cache_ st) key in
        (tt, {| cache_ := c; trace := trace st ++ [EvCacheErase key];
                reclaimed := reclaimed st ++ evs |}).

(** [TableCache::TableCache(dbname, options, entries)]: [env] is
    [options.env], and [entries] sizes the cache of the initial state. *)
Definition NewTableCache (env : Env) (dbname : string) (options : Options)
  : TableCache :=
  {| env_ := env; dbname_ := dbname; options_ := options |}.

Definition initial_state (entries : nat) : State :=
  {| cache_ := Cache.NewLRUCache entries; trace := []; reclaimed := [] |}.

(** ** Iterators (leveldb/iterator.h) *)

(** Modelled from the spec: [table/iterator.cc] is not part of the sources
    at hand. An iterator is a finite, single-pass sequence of records with a
    status and a list of registered cleanup actions; the cleanup actions run
    when the iterator is destroyed, whether it was exhausted or abandoned. *)
Record Iterator := {
  iter_records : list (Slice * Slice);
  iter_pos : nat;
  iter_status : Status;
  iter_cleanup : list (M unit);
}.

Definition Valid (it : Iterator) : bool :=
  Nat.ltb (iter_pos it) (length (iter_records it)).

Definition Next (it : Iterator) : Iterator :=
  {| iter_records := iter_records it; iter_pos := S (iter_pos it);
     iter_status := iter_status it; iter_cleanup := iter_cleanup it |}.

Definition RegisterCleanup (it : Iterator) (cleanup : M unit) : Iterator :=
  {| iter_records := iter_records it; iter_pos := iter_pos it;
     iter_status := iter_status it; iter_cleanup := iter_cleanup it ++ [cleanup] |}.

(** Modelled from the spec: the error iterator yields no record and
    reports the status [s]. *)
Definition NewErrorIterator (s : Status) : Iterator :=
  {| iter_records := []; iter_pos := 0; iter_status := s; iter_cleanup := [] |}.

Fixpoint run_cleanups (cleanups : list (M unit)) : M unit :=
  match cleanups with
  | [] => mret tt
  | cleanup :: rest => cleanup ;; run_cleanups rest
  end.

(** Modelled from the spec: [delete iter] runs every registered cleanup,
    on every exit path. *)
Definition DeleteIterator (it : Iterator) : M unit := run_cleanups (iter_cleanup it).

Definition table_NewIterator (t : Table) (options : ReadOptions) : M Iterator :=
  λ st, ({| iter_records := table_records t options; iter_pos := 0;
            iter_status := OK; iter_cleanup := [] |},
         emit [EvTableNewIterator t] st).

Definition table_InternalGet (t : Table) (options : ReadOptions) (k : Slice)
  : M (Status * option (Slice * Slice)) :=
  λ st, (InternalGet t options k, emit [EvInternalGet t k] st).

(** ** db/table_cache.cc *)

(** [static void UnrefEntry(void* arg1, void* arg2)], with [arg1] the cache
    of the state and [arg2] the handle. *)
Definition UnrefEntry (h : Cache.Handle TableAndFile) : M unit := cache_Release h.

(** The body of the loop over [search_dirs] up to the test of [s.ok()]
    (lines 79-92), with the cleanup of line 104. The pair ([s], [file]) of
    the source is a [Result]: [Ok f] when [s] is OK and [file] is [f], [Err e]
    when [s] is the failure [e] and [file] is null. *)
Definition try_dir (tc : TableCache) (file_number file_size : N) (dir : string)
  : M (Result TableAndFile) :=
  (* Try modern .ldb name first. *)
  let fname := TableFileName dir file_number in
  s ← env_NewRandomAccessFile tc fname;
  opened ← match s with
           | Ok f => mret (Ok f)
           | Err e =>
               (* Then try legacy .sst name; [s] becomes OK only when this
                  open succeeds, and keeps the first failure otherwise. *)
               let old_fname := SSTTableFileName dir file_number in
               s' ← env_NewRandomAccessFile tc old_fname;
               mret (match s' with Ok f => Ok f | Err _ => Err e end)
           end;
  match opened with
  | Err e => mret (Err e)            (* [delete file] on a null pointer *)
  | Ok f =>
      (* [s = Table::Open(options_, file, file_size, &table)] *)
      parsed ← table_Open tc f file_size;
      match parsed with
      | Ok t => mret (Ok {| file := f; table := t |})
      | Err e => delete_file f ;; mret (Err e)
      end
  end.

(** [for (const std::string& dir : search_dirs)] (lines 77-109): a success
    inserts the pair into the cache and returns, a failure becomes
    [last_status] and the next directory is tried; when no directory is left
    the last failure is returned. *)
Fixpoint search_loop (tc : TableCache) (file_number file_size : N) (key : Slice)
    (dirs : list string) (last_status : Failure)
  : M (Result (Cache.Handle TableAndFile)) :=
  match dirs with
  | [] => mret (Err last_status)
  | dir :: rest =>
      r ← try_dir tc file_number file_size dir;
      match r with
      | Ok tf =>
          handle ← cache_Insert key tf 1 DeleteEntry;
          mret (Ok handle)
      | Err e => search_loop tc file_number file_size key rest e
      end
  end.

(** [Status TableCache::FindTable(file_number, file_size, handle)]: the
    status is [status_of] the result, the handle stored through the
    out-pointer its payload. *)
Definition FindTable (tc : TableCache) (file_number file_size : N)
  : M (Result (Cache.Handle TableAndFile)) :=
  let key := EncodeFixed64 file_number in
  handle ← cache_Lookup key;
  match handle with
  | Some h => mret (Ok h)
  | None =>
      search_loop tc file_number file_size key
        (search_dirs (options_ tc) (dbname_ tc) file_number)
        (NotFound "table file not found")
  end.

(** [TableCache::NewIterator(options, file_number, file_size, tableptr)];
    the second component is what is stored through
    [tableptr] when it is not null. *)
Definition NewIterator (tc : TableCache) (options : ReadOptions)
    (file_number file_size : N) : M (Iterator * option Table) :=
  r ← FindTable tc file_number file_size;
  match r with
  | Err e => mret (NewErrorIterator (NotOK e), None)
  | Ok handle =>
      let t := table (Cache.Value handle) in
      result ← table_NewIterator t options;
      mret (RegisterCleanup result (UnrefEntry handle), Some t)
  end.

(** [Status TableCache::Get(options, file_number, file_size, k, arg,
    handle_result)]; the second component is the record handed to
    [handle_result], if any. *)
Definition Get (tc : TableCache) (options : ReadOptions)
    (file_number file_size : N) (k : Slice)
  : M (Status * option (Slice * Slice)) :=
  r ← FindTable tc file_number file_size;
  match r with
  | Ok handle =>
      let t := table (Cache.Value handle) in
      '(s, visited) ← table_InternalGet t options k;
      cache_Release handle ;;
      mret (s, visited)
  | Err e => mret (NotOK e, None)
  end.

(** [void TableCache::Evict(uint64_t file_number)]. *)
Definition Evict (file_number : N) : M unit :=
  cache_Erase (EncodeFixed64 file_number).

(** *** Derived notions used to state the properties *)

(** What one directory yields, as a function of the environment alone. *)
Definition dir_outcome (tc : TableCache) (file_number file_size : N) (dir : string)
  : Result TableAndFile :=
  let parse f :=
    match Table_Open (env_ tc) (options_ tc) f file_size with
    | Ok t => Ok {| file := f; table := t |}
    | Err e => Err e
    end in
  match NewRandomAccessFile (env_ tc) (TableFileName dir file_number) with
  | Ok f => parse f
  | Err e =>
      match NewRandomAccessFile (env_ tc) (SSTTableFileName dir file_number) with
      | Ok f => parse f
      | Err _ => Err e
      end
  end.

Definition dir_fails (tc : TableCache) (file_number file_size : N) (dir : string)
  : bool :=
  match dir_outcome tc file_number file_size dir with Ok _ => false | Err _ => true end.

(** The failure left in [last_status] after a run of directories. *)
Definition last_failure (tc : TableCache) (file_number file_size : N)
    (dirs : list string) (init : Failure) : Failure :=
  fold_left
    (λ acc dir,
       match dir_outcome tc file_number file_size dir with
       | Ok _ => acc
       | Err e => e
       end)
    dirs init.

(** The calls made while probing one directory. *)
Definition dir_events (tc : TableCache) (file_number file_size : N) (dir : string)
  : list Event :=
  let parse f :=
    EvTableOpen f file_size ::
    match Table_Open (env_ tc) (options_ tc) f file_size with
    | Ok _ => []
    | Err _ => [EvDeleteFile f]
    end in
  EvNewRandomAccessFile (TableFileName dir file_number) ::
  match NewRandomAccessFile (env_ tc) (TableFileName dir file_number) with
  | Ok f => parse f
  | Err _ =>
      EvNewRandomAccessFile (SSTTableFileName dir file_number) ::
      match NewRandomAccessFile (env_ tc) (SSTTableFileName dir file_number) with
      | Ok f => parse f
      | Err _ => []
      end
  end.

(** The directory whose name was opened by an event, for both conventions. *)
Definition opens_in (file_number : N) (dir : string) (ev : Event) : bool :=
  match ev with
  | EvNewRandomAccessFile fname =>
      String.eqb fname (TableFileName dir file_number)
      || String.eqb fname (SSTTableFileName dir file_number)
  | _ => false
  end.

(** *** A concrete environment

    A disk holding the files [present]; opening any other name fails with the
    name as message, and a file listed in [corrupt] opens but fails to parse. *)
Definition sample_table (f : RandomAccessFile) : Table :=
  {| table_file := f;
     table_records := λ _, [("k1", "v1"); ("k2", "v2")];
     InternalGet := λ _ k,
       if String.eqb k "k1" then (OK, Some ("k1", "v1"))
       else if String.eqb k "bad" then (NotOK (MkFailure kCorruption "bad block"), None)
       else (OK, None) |}.

Definition disk_env (present corrupt : list string) : Env :=
  {| NewRandomAccessFile := λ fname,
       if bool_decide (fname ∈ present) then Ok {| file_name := fname |}
       else Err (MkFailure kIOError fname);
     Table_Open := λ _ f file_size,
       if bool_decide (file_name f ∈ corrupt)
       then Err (MkFailure kCorruption (file_name f))
       else Ok (sample_table f) |}.

Definition default_read_options : ReadOptions :=
  {| verify_checksums := false; fill_cache := true |}.

(** *** Sample configurations *)

(** Two alternates, the second with an empty name. *)
Definition empty_alternate_options : Options :=
  {| enable_multi_disk := true; data_dirs := ["a"; EmptyString] |}.

(** Nothing on disk, multi-directory mode off. *)
Definition empty_disk_tc : TableCache :=
  NewTableCache (disk_env [] []) "db"
    {| enable_multi_disk := false; data_dirs := [] |}.

(** Nothing on disk, the primary directory also listed as an alternate. *)
Definition shared_primary_tc : TableCache :=
  NewTableCache (disk_env [] []) "db"
    {| enable_multi_disk := true; data_dirs := ["db"; "a"] |}.

(** Table 6 is corrupt in [a] and present under its legacy name in [b]. *)
Definition two_disk_tc : TableCache :=
  NewTableCache (disk_env ["a/000006.ldb"; "b/000006.sst"] ["a/000006.ldb"]) "db"
    {| enable_multi_disk := true; data_dirs := ["a"; "b"] |}.

Definition legacy_file : RandomAccessFile := {| file_name := "b/000006.sst" |}.

Definition legacy_entry : TableAndFile :=
  {| file := legacy_file; table := sample_table legacy_file |}.

(** The handle of table 6 in a fresh cache, and the state after resolving it. *)
Definition legacy_handle : Cache.Handle TableAndFile :=
  {| Cache.handle_id := 0; Cache.handle_key := EncodeFixed64 6;
     Cache.handle_value := legacy_entry; Cache.handle_charge := 1;
     Cache.handle_deleter := DeleteEntry |}.

Definition resolved_state : State :=
  (FindTable two_disk_tc 6 100 (initial_state 4)).2.

(** Dropping [times] references to [h], one [Release] at a time. *)
Definition release_times (h : Cache.Handle TableAndFile) (times : nat) (st : State)
  : State :=
  Nat.iter times (λ s, (cache_Release h s).2) st.

(** ** Further notions on the record of calls *)

Definition is_open (ev : Event) : bool :=
  match ev with EvNewRandomAccessFile _ => true | _ => false end.

Definition is_lookup (ev : Event) : bool :=
  match ev with EvCacheLookup _ => true | _ => false end.

Definition is_insert (ev : Event) : bool :=
  match ev with EvCacheInsert _ _ => true | _ => false end.

Definition is_any_release (ev : Event) : bool :=
  match ev with EvCacheRelease _ => true | _ => false end.

Definition is_internal_get (ev : Event) : bool :=
  match ev with EvInternalGet _ _ => true | _ => false end.

(** The calls a directory probe can make. *)
Definition is_probe_call (ev : Event) : bool :=
  match ev with
  | EvNewRandomAccessFile _ | EvTableOpen _ _ | EvDeleteFile _ => true
  | _ => false
  end.

(** The files handed to [Table::Open], and the files deleted, in order. *)
Definition parsed_files (calls : list Event) : list RandomAccessFile :=
  omap (λ ev, match ev with EvTableOpen f _ => Some f | _ => None end) calls.

Definition deleted_files (calls : list Event) : list RandomAccessFile :=
  omap (λ ev, match ev with EvDeleteFile f => Some f | _ => None end) calls.

(** What the table cache puts in the handle cache: every entry of record is
    stored under the key it carries, which encodes a file number, has charge
    1, [DeleteEntry] as destructor and a number below [next_id]. *)
Definition table_cache_entries (c : Cache.t TableAndFile) : Prop :=
  map_Forall
    (λ key h,
       Cache.handle_key h = key
       ∧ (∃ file_number, key = EncodeFixed64 file_number)
       ∧ Cache.handle_charge h = 1
       ∧ Cache.handle_deleter h = DeleteEntry
       ∧ Cache.handle_id h < Cache.next_id c)
    (Cache.table_ c).

(** The calls a client can make, and a run of them from a state; an
    iterator made by [OpNewIterator] is kept by the client, who may destroy it
    later through [OpRelease] of its handle. *)
Inductive Op :=
  | OpFindTable (file_number file_size : N)
  | OpNewIterator (options : ReadOptions) (file_number file_size : N)
  | OpGet (options : ReadOptions) (file_number file_size : N) (k : Slice)
  | OpEvict (file_number : N)
  | OpRelease (h : Cache.Handle TableAndFile).

Definition run_op (tc : TableCache) (st : State) (op : Op) : State :=
  match op with
  | OpFindTable file_number file_size => (FindTable tc file_number file_size st).2
  | OpNewIterator options file_number file_size =>
      (NewIterator tc options file_number file_size st).2
  | OpGet options file_number file_size k => (Get tc options file_number file_size k st).2
  | OpEvict file_number => (Evict file_number st).2
  | OpRelease h => (cache_Release h st).2
  end.

Definition run_ops (tc : TableCache) (ops : list Op) (st : State) : State :=
  fold_left (run_op tc) ops st.

(** ** The smoke test (test/test.cc) *)

(** [static inline bool EndsWith(const std::string& s, const std::string&
    suffix)]: the guard on the sizes comes first, so the subtraction of the
    sizes does not wrap. *)
Definition EndsWith (s suffix : string) : bool :=
  Nat.leb (String.length suffix) (String.length s)
  && String.eqb
       (substring (String.length s - String.length suffix) (String.length suffix) s)
       suffix.

(** The loop of [main] that moves the table files of the meta directory
    into the two data directories (lines 115-130). [RenameFile] is the call
    of the environment; [moved] counts the renames that succeeded, and the
    renames done are kept in order. The counter is an [int] that the number of
    files bounds, written on [nat]. *)
Definition move_step (RenameFile : string → string → Status) (meta d0 d1 : string)
    (st : nat * list (string * string)) (f : string) : nat * list (string * string) :=
  let '(moved, renamed) := st in
  if negb (EndsWith f ".ldb" || EndsWith f ".sst") then st
  else
    let src := meta +:+ "/" +:+ f in
    let dst_dir := if Nat.eqb (moved mod 2) 0 then d0 else d1 in
    let dst := dst_dir +:+ "/" +:+ f in
    if ok (RenameFile src dst) then (S moved, renamed ++ [(src, dst)])
    else st.

Definition move_tables (RenameFile : string → string → Status) (meta d0 d1 : string)
    (meta_files : list string) : nat * list (string * string) :=
  fold_left (move_step RenameFile meta d0 d1) meta_files (0, []).

(** What holds of the counter and of the renames done, at every turn of
    the loop over the files listed so far. *)
Definition moved_so_far (RenameFile : string → string → Status) (meta d0 d1 : string)
    (files : list string) (st : nat * list (string * string)) : Prop :=
  st.1 = length st.2
  ∧ ∀ i src dst,
      st.2 !! i = Some (src, dst) →
      ∃ f, f ∈ files
           ∧ (EndsWith f ".ldb" || EndsWith f ".sst") = true
           ∧ src = meta +:+ "/" +:+ f
           ∧ dst = (if Nat.eqb (i mod 2) 0 then d0 else d1) +:+ "/" +:+ f
           ∧ ok (RenameFile src dst) = true.

(** Table 7 is corrupt under its modern name and sound under its legacy
    name, both in the primary directory. *)
Definition masked_legacy_tc : TableCache :=
  NewTableCache (disk_env ["db/000007.ldb"; "db/000007.sst"] ["db/000007.ldb"]) "db"
    {| enable_multi_disk := false; data_dirs := [] |}.

(** Table 7 is present only under its legacy name, and corrupt. *)
Definition corrupt_legacy_tc : TableCache :=
  NewTableCache (disk_env ["db/000007.sst"] ["db/000007.sst"]) "db"
    {| enable_multi_disk := false; data_dirs := [] |}.

(** A rename that fails for every destination under [bad]. *)
Definition rename_unless (bad : string) (src dst : string) : Status :=
  if String.prefix bad dst then NotOK (MkFailure kIOError dst) else OK.

(** A rename that never fails. *)
Definition rename_ok (src dst : string) : Status := OK.

(** *** Properties of the search path *)

Section SearchPath.
Implicit Types (dir d : string) (acc seen l : list string).

Lemma existsb_eqb_elem_of dir acc :
  existsb (fun existing => String.eqb existing dir) acc = bool_decide (dir ∈ acc).
Proof.
  induction acc as [|x acc IH]; cbn [existsb].
  - symmetry. apply bool_decide_eq_false_2. apply not_elem_of_nil.
  - rewrite IH. destruct (String.eqb_spec x dir) as [->|Hne]; cbn [orb].
    + symmetry. apply bool_decide_eq_true_2. left.
    + apply bool_decide_ext. rewrite elem_of_cons. split; [by right|intros [->|Hin]; done].
Qed.

Lemma push_unique_dir_empty acc : push_unique_dir acc EmptyString = acc.
Proof. reflexivity. Qed.

Lemma push_unique_dir_seen acc dir : dir ∈ acc → push_unique_dir acc dir = acc.
Proof.
  intros Hin. unfold push_unique_dir.
  destruct (String.eqb dir EmptyString); [done|].
  by rewrite existsb_eqb_elem_of, bool_decide_eq_true_2.
Qed.

Lemma push_unique_dir_new acc dir :
  dir ≠ EmptyString → dir ∉ acc → push_unique_dir acc dir = acc ++ [dir].
Proof.
  intros Hne Hnin. unfold push_unique_dir.
  destruct (String.eqb_spec dir EmptyString); [done|].
  by rewrite existsb_eqb_elem_of, bool_decide_eq_false_2.
Qed.

(** The loop of pushes keeps the first occurrence of every non-empty name. *)
Lemma fold_push_unique l : ∀ acc seen,
  (∀ d, d ≠ EmptyString → d ∈ seen ↔ d ∈ acc) →
  fold_left push_unique_dir l acc
  = acc ++ filter (λ d, d ≠ EmptyString) (drop_repeats seen l).
Proof.
  induction l as [|x l IH]; intros acc seen Hsame; simpl.
  - by rewrite filter_nil, app_nil_r.
  - destruct (decide (x = EmptyString)) as [->|Hx].
    + rewrite push_unique_dir_empty. case_bool_decide.
      * by apply IH.
      * rewrite filter_cons_False by (intros Hne; by apply Hne).
        apply IH. intros d Hd. rewrite elem_of_cons, Hsame by done.
        split; [intros [->|Hin]; [done|exact Hin]|by right].
    + case_bool_decide as Hseen.
      * rewrite push_unique_dir_seen by (by apply Hsame). by apply IH.
      * rewrite push_unique_dir_new;
          [|done|intros Hin; apply Hseen; by apply Hsame].
        rewrite filter_cons_True by done.
        rewrite (IH (acc ++ [x]) (x :: seen)).
        { by rewrite <- app_assoc. }
        intros d Hd. rewrite elem_of_cons, elem_of_app, list_elem_of_singleton.
        rewrite Hsame by done. tauto.
Qed.

Lemma fold_left_push_map {A} (f : A → string) (idxs : list A) : ∀ acc,
  fold_left (fun acc i => push_unique_dir acc (f i)) idxs acc
  = fold_left push_unique_dir (map f idxs) acc.
Proof. induction idxs as [|i idxs IH]; intros acc; simpl; [done|apply IH]. Qed.

Lemma push_unique_dir_primary uniq primary :
  push_unique_dir (filter (λ d, d ≠ EmptyString) uniq) primary
  = filter (λ d, d ≠ EmptyString)
      (if bool_decide (primary ∈ uniq) then uniq else uniq ++ [primary]).
Proof.
  destruct (decide (primary = EmptyString)) as [->|Hne].
  - rewrite push_unique_dir_empty. case_bool_decide; [done|].
    rewrite filter_app, filter_cons_False, filter_nil, app_nil_r;
      [done|intros Hne; by apply Hne].
  - case_bool_decide as Hin.
    + apply push_unique_dir_seen. by apply list_elem_of_filter.
    + rewrite push_unique_dir_new; [|done|].
      * by rewrite filter_app, filter_cons_True, filter_nil.
      * rewrite list_elem_of_filter. intros [_ Hin']. by apply Hin.
Qed.

Lemma search_dirs_nonempty_names options_ dbname_ file_number :
  Forall (λ d, d ≠ EmptyString) (search_dirs options_ dbname_ file_number).
Proof.
  assert (Hpush : ∀ acc dir,
    Forall (λ d, d ≠ EmptyString) acc →
    Forall (λ d, d ≠ EmptyString) (push_unique_dir acc dir)).
  { intros acc dir Hacc. unfold push_unique_dir.
    destruct (String.eqb_spec dir EmptyString); [done|].
    destruct (existsb _ _); [done|]. apply Forall_app. split; [done|]. by constructor. }
  unfold search_dirs. apply Hpush.
  destruct (_ && _); [|constructor].
  generalize (seq 0 (length (data_dirs options_))). intros idxs.
  assert (Hnil : Forall (λ d : string, d ≠ EmptyString) []) by constructor. revert Hnil.
  generalize (@nil string). induction idxs as [|i idxs IH]; intros acc Hacc; simpl; [done|].
  apply IH. by apply Hpush.
Qed.

End SearchPath.

Lemma search_dirs_as_filter (options_ : Options) (dbname_ : string) (file_number : N) :
  search_dirs options_ dbname_ file_number
  = filter (λ d, d ≠ EmptyString) (spec_search_path options_ dbname_ file_number).
Proof.
unfold search_dirs, spec_search_path.
destruct (enable_multi_disk options_ && negb (bool_decide (data_dirs options_ = []))).
- cbv zeta. rewrite fold_left_push_map.
  rewrite (fold_push_unique _ [] []) by done. rewrite app_nil_l.
  apply push_unique_dir_primary.
- destruct (decide (dbname_ = EmptyString)) as [->|Hne]; [done|].
  rewrite push_unique_dir_new; [|done|apply not_elem_of_nil].
  by rewrite filter_cons_True, filter_nil.
Qed.

(** ** Running the embedding: one directory, the loop, FindTable *)

Section Running.
Context (tc : TableCache) (file_number file_size : N).

Local Abbreviation key := (EncodeFixed64 file_number).
Local Abbreviation outcome := (dir_outcome tc file_number file_size).
Local Abbreviation events := (dir_events tc file_number file_size).
Local Abbreviation fails := (λ dir, dir_fails tc file_number file_size dir = true).
Local Abbreviation last_of := (last_failure tc file_number file_size).

Lemma emit_emit evs1 evs2 st : emit evs2 (emit evs1 st) = emit (evs1 ++ evs2) st.
Proof. unfold emit; simpl. by rewrite app_assoc. Qed.

Lemma emit_nil st : emit [] st = st.
Proof. destruct st. unfold emit; simpl. by rewrite app_nil_r. Qed.

(** Probing a directory returns its outcome and records its calls; the
    handle cache is not touched. *)
Lemma try_dir_run dir st :
  try_dir tc file_number file_size dir st = (outcome dir, emit (events dir) st).
Proof.
  unfold try_dir, dir_outcome, dir_events.
  cbv [mbind M_bind mret M_ret env_NewRandomAccessFile table_Open delete_file].
  destruct (NewRandomAccessFile _ (TableFileName _ _)) as [f|e].
  - destruct (Table_Open _ _ f _); by rewrite !emit_emit.
  - destruct (NewRandomAccessFile _ (SSTTableFileName _ _)) as [f|e'].
    + destruct (Table_Open _ _ f _); by rewrite !emit_emit.
    + by rewrite !emit_emit.
Qed.

Lemma dir_fails_Err dir : fails dir → ∃ e, outcome dir = Err e.
Proof. unfold dir_fails. destruct (outcome dir) as [tf|e]; [done|eauto]. Qed.

Lemma last_failure_snoc dirs d init e :
  outcome d = Err e → last_of (dirs ++ [d]) init = e.
Proof. intros He. unfold last_failure. rewrite fold_left_app. simpl. by rewrite He. Qed.

Lemma search_loop_all_fail dirs : ∀ last_status st,
  Forall fails dirs →
  search_loop tc file_number file_size key dirs last_status st
  = (Err (last_of dirs last_status), emit (flat_map events dirs) st).
Proof.
  induction dirs as [|dir rest IH]; intros last_status st Hfail.
  - simpl. by rewrite emit_nil.
  - inversion Hfail as [|? ? Hdir Hrest]; subst.
    destruct (dir_fails_Err _ Hdir) as [e He].
    cbn [search_loop flat_map]. cbv [mbind M_bind].
    rewrite try_dir_run, He. rewrite IH by done.
    rewrite emit_emit. unfold last_failure at 2. simpl. by rewrite He.
Qed.

Lemma search_loop_first_success before dir after tf last_status st :
  Forall fails before →
  outcome dir = Ok tf →
  search_loop tc file_number file_size key (before ++ dir :: after) last_status st
  = let '(h, st') := cache_Insert key tf 1 DeleteEntry
                       (emit (flat_map events before ++ events dir) st) in
    (Ok h, st').
Proof.
  revert last_status st.
  induction before as [|d before IH]; intros last_status st Hfail Hok.
  - cbn [app search_loop flat_map]. cbv [mbind M_bind mret M_ret].
    rewrite try_dir_run, Hok. by destruct (cache_Insert _ _ _ _ _).
  - inversion Hfail as [|? ? Hd Hrest]; subst.
    destruct (dir_fails_Err _ Hd) as [e He].
    cbn [app search_loop flat_map]. cbv [mbind M_bind].
    rewrite try_dir_run, He. rewrite IH by done.
    by rewrite emit_emit, <- app_assoc.
Qed.

(** Every search path splits at its first directory that does not fail. *)
Lemma first_success_split dirs :
  Forall fails dirs ∨
  ∃ before dir after tf,
    dirs = before ++ dir :: after ∧ Forall fails before ∧ outcome dir = Ok tf.
Proof.
  induction dirs as [|d dirs IH]; [by left|].
  destruct (outcome d) as [tf|e] eqn:Hd.
  - right. exists [], d, dirs, tf. by repeat split.
  - assert (fails d) by (unfold dir_fails; by rewrite Hd).
    destruct IH as [Hall|(before & dir & after & tf & -> & Hb & Hok)].
    + left. by constructor.
    + right. exists (d :: before), dir, after, tf. repeat split; [|done]. by constructor.
Qed.

Lemma FindTable_hit st h :
  Cache.table_ (cache_ st) !! key = Some h →
  FindTable tc file_number file_size st
  = (Ok h, {| cache_ := Cache.Ref (cache_ st) h;
              trace := trace st ++ [EvCacheLookup key];
              reclaimed := reclaimed st |}).
Proof.
  intros Hh. unfold FindTable. cbv [mbind M_bind mret M_ret cache_Lookup].
  unfold Cache.Lookup. by rewrite Hh.
Qed.

Lemma FindTable_miss st :
  Cache.table_ (cache_ st) !! key = None →
  FindTable tc file_number file_size st
  = search_loop tc file_number file_size key
      (search_dirs (options_ tc) (dbname_ tc) file_number)
      (NotFound "table file not found") (emit [EvCacheLookup key] st).
Proof.
  intros Hh. unfold FindTable. cbv [mbind M_bind mret M_ret cache_Lookup].
  unfold Cache.Lookup. rewrite Hh. by destruct st.
Qed.

End Running.

(** ** More on the search path: no repetition, position of the primary *)

Section SearchPathShape.
Implicit Types (dir d : string) (acc l : list string).

Lemma push_unique_dir_NoDup acc dir : NoDup acc → NoDup (push_unique_dir acc dir).
Proof.
  intros Hacc. unfold push_unique_dir.
  destruct (String.eqb dir EmptyString); [done|].
  rewrite existsb_eqb_elem_of. case_bool_decide as Hin; [done|].
  apply NoDup_app. repeat split; [done| |apply NoDup_singleton].
  intros x Hx Hx'. apply list_elem_of_singleton in Hx'. by subst.
Qed.

Lemma search_dirs_NoDup options_ dbname_ file_number :
  NoDup (search_dirs options_ dbname_ file_number).
Proof.
  unfold search_dirs. apply push_unique_dir_NoDup.
  destruct (_ && _); [|apply NoDup_nil_2].
  generalize (seq 0 (length (data_dirs options_))). intros idxs.
  assert (Hnil : NoDup (@nil string)) by apply NoDup_nil_2. revert Hnil.
  generalize (@nil string).
  induction idxs as [|i idxs IH]; intros acc Hacc; simpl; [done|].
  apply IH. by apply push_unique_dir_NoDup.
Qed.

Lemma drop_repeats_subseteq l : ∀ seen d, d ∈ drop_repeats seen l → d ∈ l.
Proof.
  induction l as [|x l IH]; intros seen d; simpl; [done|].
  case_bool_decide.
  - intros Hd. right. by eapply IH.
  - rewrite !elem_of_cons. intros [->|Hd]; [by left|right; by eapply IH].
Qed.

Lemma circular_from_subseteq start l d : d ∈ circular_from start l → d ∈ l.
Proof.
  unfold circular_from. rewrite list_elem_of_In, in_map_iff.
  intros (i & <- & Hi). apply in_seq in Hi.
  apply list_elem_of_In, nth_In. apply Nat.mod_upper_bound. lia.
Qed.

(** The primary directory closes the search path when its name is not empty
    and it is not one of the alternates in use. *)
Lemma search_dirs_primary_last options_ dbname_ file_number :
  dbname_ ≠ EmptyString →
  enable_multi_disk options_ = false ∨ dbname_ ∉ data_dirs options_ →
  last (search_dirs options_ dbname_ file_number) = Some dbname_.
Proof.
  intros Hne Hcfg. rewrite search_dirs_as_filter. unfold spec_search_path.
  destruct (enable_multi_disk options_ && negb (bool_decide (data_dirs options_ = [])))
    eqn:Hmulti.
  - cbv zeta. destruct Hcfg as [Hoff|Hnot].
    { rewrite Hoff in Hmulti. discriminate Hmulti. }
    rewrite bool_decide_eq_false_2.
    + rewrite filter_app, filter_cons_True, filter_nil by done. apply last_snoc.
    + intros Hin. apply Hnot.
      by eapply circular_from_subseteq, drop_repeats_subseteq.
  - by rewrite filter_cons_True, filter_nil.
Qed.

(** File names determine their directory and their suffix. *)
Lemma list_ascii_of_string_app (s1 s2 : string) :
  list_ascii_of_string (s1 +:+ s2) = list_ascii_of_string s1 ++ list_ascii_of_string s2.
Proof. induction s1 as [|a s1 IH]; simpl; [done|by rewrite IH]. Qed.

Lemma MakeFileName_inj d1 d2 number suffix1 suffix2 :
  String.length suffix1 = String.length suffix2 →
  MakeFileName d1 number suffix1 = MakeFileName d2 number suffix2 →
  d1 = d2 ∧ suffix1 = suffix2.
Proof.
  intros Hlen Heq. unfold MakeFileName in Heq.
  apply (f_equal list_ascii_of_string) in Heq.
  rewrite !list_ascii_of_string_app in Heq.
  apply app_inj_2 in Heq as [Hd Hrest].
  - split.
    + rewrite <- (string_of_list_ascii_of_string d1), Hd.
      apply string_of_list_ascii_of_string.
    + do 3 apply app_inv_head in Hrest.
      rewrite <- (string_of_list_ascii_of_string suffix1), Hrest.
      apply string_of_list_ascii_of_string.
  - rewrite !length_app. f_equal. f_equal. f_equal.
    clear -Hlen. revert suffix2 Hlen.
    induction suffix1 as [|a s IH]; intros [|b s2] Hlen; simpl in *; try done.
    f_equal. apply IH. lia.
Qed.

Lemma opens_in_dir_events tc file_number file_size d d' ev :
  ev ∈ dir_events tc file_number file_size d' →
  opens_in file_number d ev = true →
  d = d'.
Proof.
  intros Hev Hopen.
  assert (Hnames : ∀ fname,
    ev = EvNewRandomAccessFile fname →
    fname = TableFileName d' file_number ∨ fname = SSTTableFileName d' file_number →
    d = d').
  { intros fname -> Hfname. simpl in Hopen.
    apply orb_true_iff in Hopen.
    destruct Hopen as [Ho|Ho]; apply String.eqb_eq in Ho; subst fname;
      destruct Hfname as [Hf|Hf]; unfold TableFileName, SSTTableFileName in Hf;
      apply MakeFileName_inj in Hf; try done; by destruct Hf. }
  unfold dir_events in Hev.
  apply elem_of_cons in Hev as [->|Hev]; [by eapply Hnames; eauto|].
  destruct (NewRandomAccessFile _ (TableFileName _ _)).
  - apply elem_of_cons in Hev as [->|Hev]; [done|].
    destruct (Table_Open _ _ _ _); [by apply not_elem_of_nil in Hev|].
    apply list_elem_of_singleton in Hev as ->. done.
  - apply elem_of_cons in Hev as [->|Hev]; [by eapply Hnames; eauto|].
    destruct (NewRandomAccessFile _ (SSTTableFileName _ _)); [|by apply not_elem_of_nil in Hev].
    apply elem_of_cons in Hev as [->|Hev]; [done|].
    destruct (Table_Open _ _ _ _); [by apply not_elem_of_nil in Hev|].
    apply list_elem_of_singleton in Hev as ->. done.
Qed.

End SearchPathShape.

(** ** The handle cache: reference counts, the table, fresh handles *)

Section CacheFacts.
Context {V : Type}.
Implicit Types (c : Cache.t V) (h : Cache.Handle V) (key : Slice).

Lemma Unref_frame c h :
  Cache.next_id (Cache.Unref c h).1 = Cache.next_id c
  ∧ Cache.table_ (Cache.Unref c h).1 = Cache.table_ c.
Proof.
  unfold Cache.Unref. destruct (Cache.refs_ c !! Cache.handle_id h) as [refs|]; [|done].
  by destruct (Nat.leb refs 1).
Qed.

(** The last reference runs the destructor, exactly then. *)
Lemma Unref_last c h :
  Cache.refs_ c !! Cache.handle_id h = Some 1 →
  (Cache.Unref c h).2 = Cache.handle_deleter h (Cache.handle_key h) (Cache.handle_value h)
  ∧ Cache.refs_ (Cache.Unref c h).1 !! Cache.handle_id h = None.
Proof.
  intros Hrefs. unfold Cache.Unref. rewrite Hrefs. simpl.
  split; [done|apply lookup_delete_eq].
Qed.

Lemma Unref_shared c h refs :
  Cache.refs_ c !! Cache.handle_id h = Some (S (S refs)) →
  (Cache.Unref c h).2 = []
  ∧ Cache.refs_ (Cache.Unref c h).1 !! Cache.handle_id h = Some (S refs).
Proof.
  intros Hrefs. unfold Cache.Unref. rewrite Hrefs. simpl.
  split; [done|]. rewrite lookup_insert_eq. f_equal; lia.
Qed.

Lemma FinishErase_frame c h :
  Cache.next_id (Cache.FinishErase c h).1 = Cache.next_id c
  ∧ Cache.table_ (Cache.FinishErase c h).1 = Cache.table_ c.
Proof.
  unfold Cache.FinishErase.
  match goal with |- context [Cache.Unref ?c' h] => by destruct (Unref_frame c' h) as [-> ->] end.
Qed.

Lemma Erase_frame c key :
  Cache.next_id (Cache.Erase c key).1 = Cache.next_id c
  ∧ Cache.table_ (Cache.Erase c key).1 = delete key (Cache.table_ c).
Proof.
  unfold Cache.Erase. destruct (Cache.table_ c !! key) as [h|] eqn:Hkey.
  - by destruct (FinishErase_frame (Cache.remove_key c key) h) as [-> ->].
  - split; [done|]. by rewrite delete_id.
Qed.

Lemma Erase_lookup c key : Cache.table_ (Cache.Erase c key).1 !! key = None.
Proof. destruct (Erase_frame c key) as [_ ->]. apply lookup_delete_eq. Qed.

Lemma make_room_frame charge lru : ∀ c,
  Cache.next_id (Cache.make_room c charge lru).1 = Cache.next_id c
  ∧ Cache.table_ (Cache.make_room c charge lru).1 ⊆ Cache.table_ c.
Proof.
  induction lru as [|old lru IH]; intros c; simpl; [done|].
  destruct (Nat.ltb _ _); [|done].
  destruct (Cache.FinishErase _ old) as [c1 evs1] eqn:Hfe.
  destruct (Cache.make_room c1 charge lru) as [c2 evs2] eqn:Hmr.
  specialize (IH c1). rewrite Hmr in IH. simpl in *. destruct IH as [-> Hsub].
  destruct (FinishErase_frame (Cache.remove_key c (Cache.handle_key old)) old) as [Hn Ht].
  rewrite Hfe in Hn, Ht. simpl in *. rewrite Hn. split; [done|].
  etrans; [exact Hsub|]. rewrite Ht. apply delete_subseteq.
Qed.

(** [Insert] hands out a handle with a fresh number that carries what was
    inserted, and makes it the entry of record of its key. *)
Lemma Insert_handle c key value charge deleter :
  let '(h, c', _) := Cache.Insert c key value charge deleter in
  Cache.handle_id h = Cache.next_id c
  ∧ Cache.handle_key h = key
  ∧ Cache.handle_value h = value
  ∧ Cache.handle_charge h = charge
  ∧ Cache.handle_deleter h = deleter
  ∧ Cache.table_ c' !! key = Some h
  ∧ Cache.refs_ c' !! Cache.handle_id h = Some 2
  ∧ Cache.next_id c' = S (Cache.next_id c).
Proof.
  unfold Cache.Insert.
  destruct (Cache.Erase c key) as [c1 evs1] eqn:He.
  destruct (Cache.make_room c1 charge (Cache.lru_ c1)) as [c2 evs2] eqn:Hm.
  destruct (Erase_frame c key) as [Hn1 _]. rewrite He in Hn1. simpl in Hn1.
  destruct (make_room_frame charge (Cache.lru_ c1) c1) as [Hn2 _].
  rewrite Hm in Hn2. simpl in *.
  rewrite !lookup_insert_eq. rewrite Hn2, Hn1. done.
Qed.

Lemma ids_below_next_new capacity : Cache.ids_below_next (@Cache.NewLRUCache V capacity).
Proof. apply map_Forall_empty. Qed.

Lemma ids_below_next_Lookup c key :
  Cache.ids_below_next c → Cache.ids_below_next (Cache.Lookup c key).2.
Proof. unfold Cache.Lookup. by destruct (Cache.table_ c !! key). Qed.

Lemma ids_below_next_Release c h :
  Cache.ids_below_next c → Cache.ids_below_next (Cache.Release c h).1.
Proof.
  unfold Cache.ids_below_next, Cache.Release.
  by destruct (Unref_frame c h) as [-> ->].
Qed.

Lemma ids_below_next_Erase c key :
  Cache.ids_below_next c → Cache.ids_below_next (Cache.Erase c key).1.
Proof.
  unfold Cache.ids_below_next.
  destruct (Erase_frame c key) as [-> ->]. apply map_Forall_delete.
Qed.

Lemma ids_below_next_Insert c key value charge deleter :
  Cache.ids_below_next c →
  Cache.ids_below_next (Cache.Insert c key value charge deleter).1.2.
Proof.
  intros Hc. apply (ids_below_next_Erase _ key) in Hc.
  unfold Cache.Insert.
  destruct (Cache.Erase c key) as [c1 evs1].
  destruct (Cache.make_room c1 charge (Cache.lru_ c1)) as [c2 evs2] eqn:Hm.
  destruct (make_room_frame charge (Cache.lru_ c1) c1) as [Hn2 Hsub].
  rewrite Hm in Hn2, Hsub. simpl in *.
  unfold Cache.ids_below_next in *. simpl.
  apply map_Forall_insert_2; [simpl; lia|].
  intros k h Hk. eapply lookup_weaken in Hk; [|exact Hsub].
  apply Hc in Hk. simpl in Hk. lia.
Qed.

End CacheFacts.

(** ** The cache key: file numbers below 2^64 never collide *)

Lemma byte_at_inj (n m : N) (i : nat) :
  byte_at n i = byte_at m i →
  ((n / 2 ^ (8 * N.of_nat i)) mod 256 = (m / 2 ^ (8 * N.of_nat i)) mod 256)%N.
Proof.
  unfold byte_at. intros H. apply (f_equal N_of_ascii) in H.
  rewrite !N_ascii_embedding in H; [done| |]; apply N.mod_upper_bound; lia.
Qed.

Lemma shift_byte (n : N) (i : nat) :
  (n / 2 ^ (8 * N.of_nat (S i)) = n / 2 ^ (8 * N.of_nat i) / 256)%N.
Proof.
  rewrite N.Div0.div_div. f_equal.
  replace (8 * N.of_nat (S i))%N with (8 * N.of_nat i + 8)%N by lia.
  by rewrite N.pow_add_r.
Qed.

Lemma bytes_inj (k : nat) (a b : N) :
  (∀ i : nat, (i < k)%nat →
     ((a / 2 ^ (8 * N.of_nat i)) mod 256 = (b / 2 ^ (8 * N.of_nat i)) mod 256)%N) →
  (a / 2 ^ (8 * N.of_nat k) = b / 2 ^ (8 * N.of_nat k))%N →
  a = b.
Proof.
  induction k as [|k IH]; intros Hbytes Htop.
  - simpl in Htop. by rewrite !N.div_1_r in Htop.
  - apply IH; [intros i Hi; apply Hbytes; lia|].
    rewrite !shift_byte in Htop.
    rewrite (N.div_mod' (a / 2 ^ (8 * N.of_nat k)) 256).
    rewrite (N.div_mod' (b / 2 ^ (8 * N.of_nat k)) 256).
    rewrite Htop, (Hbytes k) by lia. done.
Qed.

Lemma EncodeFixed64_inj (n m : N) :
  (n < 2 ^ 64)%N → (m < 2 ^ 64)%N → EncodeFixed64 n = EncodeFixed64 m → n = m.
Proof.
  intros Hn Hm Heq. unfold EncodeFixed64 in Heq.
  apply (f_equal list_ascii_of_string) in Heq.
  rewrite !list_ascii_of_string_of_list_ascii in Heq.
  cbn [map] in Heq.
  injection Heq as H7 H6 H5 H4 H3 H2 H1 H0.
  apply (bytes_inj 8).
  - intros i Hi. do 8 (destruct i as [|i]; [by apply byte_at_inj|]). lia.
  - change (8 * N.of_nat 8)%N with 64%N. by rewrite !N.div_small.
Qed.

(** ** The search path used by FindTable *)

(** C1 (as amended): on a miss FindTable probes the directories of
    [search_dirs], which is a function of the options, the primary directory
    and the file number alone, and equals the path the specification
    describes with the empty directory names left out: start at index
    [file_number mod N], [N] alternates in circular order, first occurrence of
    every name kept, the primary directory appended when not already present;
    only the primary directory when multi-directory mode is off or no
    alternate is configured. *)
Theorem search_dirs_refines_spec (tc : TableCache) (file_number : N) :
  search_dirs (options_ tc) (dbname_ tc) file_number
  = filter (λ d, d ≠ EmptyString)
      (spec_search_path (options_ tc) (dbname_ tc) file_number)
  ∧ ∀ file_size st,
      Cache.table_ (cache_ st) !! EncodeFixed64 file_number = None →
      FindTable tc file_number file_size st
      = search_loop tc file_number file_size (EncodeFixed64 file_number)
          (search_dirs (options_ tc) (dbname_ tc) file_number)
          (NotFound "table file not found")
          (emit [EvCacheLookup (EncodeFixed64 file_number)] st).
Proof.
  split; [apply search_dirs_as_filter|].
  intros file_size st Hmiss. by apply FindTable_miss.
Qed.

Lemma search_dirs_refines_spec_witness :
  Cache.table_ (cache_ (initial_state 4)) !! EncodeFixed64 6 = None
  ∧ search_dirs (options_ two_disk_tc) (dbname_ two_disk_tc) 6 = ["a"; "b"; "db"]
  ∧ spec_search_path (options_ two_disk_tc) (dbname_ two_disk_tc) 6 = ["a"; "b"; "db"]
  ∧ FindTable two_disk_tc 6 100 (initial_state 4)
    = search_loop two_disk_tc 6 100 (EncodeFixed64 6) ["a"; "b"; "db"]
        (NotFound "table file not found")
        (emit [EvCacheLookup (EncodeFixed64 6)] (initial_state 4)).
Proof.
  assert (Hmiss : Cache.table_ (cache_ (initial_state 4)) !! EncodeFixed64 6 = None)
    by reflexivity.
  split; [exact Hmiss|]. split; [reflexivity|]. split; [reflexivity|].
  exact (proj2 (search_dirs_refines_spec two_disk_tc 6) 100%N (initial_state 4) Hmiss).
Defined.

(** C1 as stated fails when a configured name is the empty string: the
    guard of [push_unique_dir] drops it, here the second alternate, which the
    path of the specification keeps. *)
Lemma search_dirs_drops_empty_names :
  search_dirs empty_alternate_options "db" 0 = ["a"; "db"]
  ∧ spec_search_path empty_alternate_options "db" 0 = ["a"; EmptyString; "db"]
  ∧ search_dirs empty_alternate_options "db" 0
    ≠ spec_search_path empty_alternate_options "db" 0.
Proof. split; [reflexivity|]. split; [reflexivity|]. discriminate. Qed.

(** ** FindTable: the miss path *)

Lemma cache_Insert_run (key : Slice) (tf : TableAndFile) (st : State) :
  ∃ h st',
    cache_Insert key tf 1 DeleteEntry st = (h, st')
    ∧ trace st' = trace st ++ [EvCacheInsert key 1]
    ∧ Cache.handle_id h = Cache.next_id (cache_ st)
    ∧ Cache.handle_key h = key
    ∧ Cache.Value h = tf
    ∧ Cache.handle_charge h = 1
    ∧ Cache.handle_deleter h = DeleteEntry
    ∧ Cache.table_ (cache_ st') !! key = Some h
    ∧ Cache.refs_ (cache_ st') !! Cache.handle_id h = Some 2.
Proof.
  unfold cache_Insert.
  pose proof (Insert_handle (cache_ st) key tf 1 DeleteEntry) as Hins.
  destruct (Cache.Insert (cache_ st) key tf 1 DeleteEntry) as [[h c] evs].
  destruct Hins as (Hid & Hkey & Hval & Hch & Hdel & Htab & Hrefs & _).
  eexists _, _. split; [reflexivity|]. simpl. by repeat split.
Qed.

(** C2 (as amended): when the handle cache misses and every directory of
    the search path fails, FindTable returns the failure recorded last: the
    one of the final directory of the search path, or the initial "table file
    not found" when the search path is empty. When the primary directory has
    a non-empty name and is not one of the alternates in use, it is the final
    directory and the failure is the one of its attempt. *)
Theorem FindTable_returns_last_failure
    (tc : TableCache) (file_number file_size : N) (st : State) :
  Cache.table_ (cache_ st) !! EncodeFixed64 file_number = None →
  Forall (λ dir, dir_fails tc file_number file_size dir = true)
         (search_dirs (options_ tc) (dbname_ tc) file_number) →
  ∃ e,
    (FindTable tc file_number file_size st).1 = Err e
    ∧ (search_dirs (options_ tc) (dbname_ tc) file_number = [] →
       e = NotFound "table file not found")
    ∧ (∀ d, last (search_dirs (options_ tc) (dbname_ tc) file_number) = Some d →
            dir_outcome tc file_number file_size d = Err e)
    ∧ (dbname_ tc ≠ EmptyString →
       enable_multi_disk (options_ tc) = false ∨ dbname_ tc ∉ data_dirs (options_ tc) →
       dir_outcome tc file_number file_size (dbname_ tc) = Err e).
Proof.
  intros Hmiss Hfail.
  assert (Hlast : ∀ d, last (search_dirs (options_ tc) (dbname_ tc) file_number) = Some d →
    dir_outcome tc file_number file_size d
    = Err (last_failure tc file_number file_size
             (search_dirs (options_ tc) (dbname_ tc) file_number)
             (NotFound "table file not found"))).
  { intros d Hd. apply last_Some in Hd as [dirs Hdirs]. rewrite Hdirs in *.
    apply Forall_app in Hfail as [_ Hd]. inversion Hd as [|? ? Hd' _]; subst.
    destruct (dir_fails_Err _ _ _ _ Hd') as [e He].
    rewrite He. f_equal. symmetry. by apply last_failure_snoc. }
  eexists. rewrite FindTable_miss, search_loop_all_fail by done.
  split; [reflexivity|]. split; [by intros ->|]. split; [exact Hlast|].
  intros Hne Hcfg. apply Hlast. by apply search_dirs_primary_last.
Qed.

Lemma FindTable_returns_last_failure_witness :
  Cache.table_ (cache_ (initial_state 4)) !! EncodeFixed64 7 = None
  ∧ Forall (λ dir, dir_fails empty_disk_tc 7 100 dir = true)
           (search_dirs (options_ empty_disk_tc) (dbname_ empty_disk_tc) 7)
  ∧ ∃ e,
      (FindTable empty_disk_tc 7 100 (initial_state 4)).1 = Err e
      ∧ (search_dirs (options_ empty_disk_tc) (dbname_ empty_disk_tc) 7 = [] →
         e = NotFound "table file not found")
      ∧ (∀ d, last (search_dirs (options_ empty_disk_tc) (dbname_ empty_disk_tc) 7) = Some d →
              dir_outcome empty_disk_tc 7 100 d = Err e)
      ∧ (dbname_ empty_disk_tc ≠ EmptyString →
         enable_multi_disk (options_ empty_disk_tc) = false
         ∨ dbname_ empty_disk_tc ∉ data_dirs (options_ empty_disk_tc) →
         dir_outcome empty_disk_tc 7 100 (dbname_ empty_disk_tc) = Err e).
Proof.
  assert (Hmiss : Cache.table_ (cache_ (initial_state 4)) !! EncodeFixed64 7 = None)
    by reflexivity.
  assert (Hfail : Forall (λ dir, dir_fails empty_disk_tc 7 100 dir = true)
                    (search_dirs (options_ empty_disk_tc) (dbname_ empty_disk_tc) 7))
    by (repeat constructor).
  split; [exact Hmiss|]. split; [exact Hfail|].
  exact (FindTable_returns_last_failure empty_disk_tc 7 100 (initial_state 4) Hmiss Hfail).
Defined.

(** C2 as stated fails when the primary directory is also listed as an
    alternate: it is not appended again, another directory is probed last and
    the failure returned is the one of that directory. *)
Lemma FindTable_failure_not_from_primary :
  Cache.table_ (cache_ (initial_state 4)) !! EncodeFixed64 0 = None
  ∧ search_dirs (options_ shared_primary_tc) (dbname_ shared_primary_tc) 0 = ["db"; "a"]
  ∧ Forall (λ dir, dir_fails shared_primary_tc 0 100 dir = true) ["db"; "a"]
  ∧ (FindTable shared_primary_tc 0 100 (initial_state 4)).1
    = Err (MkFailure kIOError "a/000000.ldb")
  ∧ dir_outcome shared_primary_tc 0 100 (dbname_ shared_primary_tc)
    = Err (MkFailure kIOError "db/000000.ldb")
  ∧ ¬ (∃ e, (FindTable shared_primary_tc 0 100 (initial_state 4)).1 = Err e
            ∧ dir_outcome shared_primary_tc 0 100 (dbname_ shared_primary_tc) = Err e).
Proof.
  do 2 (split; [reflexivity|]). split; [by repeat constructor|].
  do 2 (split; [reflexivity|]).
  intros (e & Hfind & Hprimary). vm_compute in Hfind, Hprimary. congruence.
Qed.

(** C10: when both opens fail in a directory, the failure recorded for the
    directory is the one of the modern-name open; it replaces [last_status]
    and is what FindTable returns when the directory is the last one. The
    failure of the legacy-name open is dropped. *)
Theorem legacy_open_failure_discarded
    (tc : TableCache) (file_number file_size : N) (dir : string) (e e_legacy : Failure) :
  NewRandomAccessFile (env_ tc) (TableFileName dir file_number) = Err e →
  NewRandomAccessFile (env_ tc) (SSTTableFileName dir file_number) = Err e_legacy →
  (∀ st, (try_dir tc file_number file_size dir st).1 = Err e)
  ∧ (∀ rest last_status st,
       search_loop tc file_number file_size (EncodeFixed64 file_number)
         (dir :: rest) last_status st
       = search_loop tc file_number file_size (EncodeFixed64 file_number) rest e
           (emit [EvNewRandomAccessFile (TableFileName dir file_number);
                  EvNewRandomAccessFile (SSTTableFileName dir file_number)] st))
  ∧ (∀ st before,
       Cache.table_ (cache_ st) !! EncodeFixed64 file_number = None →
       search_dirs (options_ tc) (dbname_ tc) file_number = before ++ [dir] →
       Forall (λ d, dir_fails tc file_number file_size d = true) before →
       (FindTable tc file_number file_size st).1 = Err e).
Proof.
  intros Hmodern Hlegacy.
  assert (Hout : dir_outcome tc file_number file_size dir = Err e).
  { unfold dir_outcome. by rewrite Hmodern, Hlegacy. }
  assert (Hev : dir_events tc file_number file_size dir
                = [EvNewRandomAccessFile (TableFileName dir file_number);
                   EvNewRandomAccessFile (SSTTableFileName dir file_number)]).
  { unfold dir_events. by rewrite Hmodern, Hlegacy. }
  split; [|split].
  - intros st. by rewrite try_dir_run, Hout.
  - intros rest last_status st. cbn [search_loop]. cbv [mbind M_bind].
    by rewrite try_dir_run, Hout, Hev.
  - intros st before Hmiss Hdirs Hbefore.
    rewrite FindTable_miss, Hdirs by done.
    rewrite search_loop_all_fail.
    + simpl. f_equal. by apply last_failure_snoc.
    + apply Forall_app. split; [done|]. constructor; [|done].
      unfold dir_fails. by rewrite Hout.
Qed.

Lemma legacy_open_failure_discarded_witness :
  NewRandomAccessFile (env_ empty_disk_tc) (TableFileName "db" 7)
    = Err (MkFailure kIOError "db/000007.ldb")
  ∧ NewRandomAccessFile (env_ empty_disk_tc) (SSTTableFileName "db" 7)
    = Err (MkFailure kIOError "db/000007.sst")
  ∧ (FindTable empty_disk_tc 7 100 (initial_state 4)).1
    = Err (MkFailure kIOError "db/000007.ldb").
Proof.
  split; [reflexivity|]. split; [reflexivity|].
  refine (proj2 (proj2 (legacy_open_failure_discarded empty_disk_tc 7 100 "db"
            (MkFailure kIOError "db/000007.ldb") (MkFailure kIOError "db/000007.sst")
            eq_refl eq_refl)) (initial_state 4) [] eq_refl eq_refl _).
  constructor.
Defined.

(** C4: at the first directory of the search path in which open and parse
    succeed, FindTable inserts the pair into the handle cache under the
    8-byte key of the file number, with charge 1 and [DeleteEntry] as
    destructor, and returns OK with the new handle; the calls made are the
    lookup, the probes of the directories up to that one and the insertion,
    and no file of a later directory is opened. *)
Theorem FindTable_stops_at_first_success
    (tc : TableCache) (file_number file_size : N) (st : State)
    (before : list string) (dir : string) (after : list string) (tf : TableAndFile) :
  Cache.table_ (cache_ st) !! EncodeFixed64 file_number = None →
  search_dirs (options_ tc) (dbname_ tc) file_number = before ++ dir :: after →
  Forall (λ d, dir_fails tc file_number file_size d = true) before →
  dir_outcome tc file_number file_size dir = Ok tf →
  let key := EncodeFixed64 file_number in
  let calls :=
    EvCacheLookup key :: flat_map (dir_events tc file_number file_size) before
    ++ dir_events tc file_number file_size dir ++ [EvCacheInsert key 1] in
  ∃ h st',
    FindTable tc file_number file_size st = (Ok h, st')
    ∧ trace st' = trace st ++ calls
    ∧ String.length key = 8
    ∧ Cache.handle_key h = key
    ∧ Cache.Value h = tf
    ∧ Cache.handle_charge h = 1
    ∧ Cache.handle_deleter h = DeleteEntry
    ∧ Cache.table_ (cache_ st') !! key = Some h
    ∧ (∀ d ev, d ∈ after → ev ∈ calls → opens_in file_number d ev = false).
Proof.
  intros Hmiss Hdirs Hbefore Hok key calls.
  rewrite FindTable_miss, Hdirs by done.
  rewrite search_loop_first_success with (tf := tf) by done.
  rewrite emit_emit.
  destruct (cache_Insert_run key tf
              (emit ([EvCacheLookup key]
                     ++ flat_map (dir_events tc file_number file_size) before
                     ++ dir_events tc file_number file_size dir) st))
    as (h & st' & Hrun & Htrace & _ & Hkey & Hval & Hch & Hdel & Htab & _).
  fold key. rewrite Hrun. exists h, st'.
  split; [done|]. split.
  { rewrite Htrace. subst calls. unfold emit. simpl.
    rewrite <- app_assoc. simpl. by rewrite <- app_assoc. }
  do 6 (split; [done|]).
  intros d ev Hd Hev. destruct (opens_in file_number d ev) eqn:Hopen; [|done].
  exfalso.
  pose proof (search_dirs_NoDup (options_ tc) (dbname_ tc) file_number) as Hnodup.
  rewrite Hdirs in Hnodup.
  assert (Hprobed : ∃ d', d' ∈ before ++ [dir]
                          ∧ ev ∈ dir_events tc file_number file_size d').
  { subst calls. apply elem_of_cons in Hev as [->|Hev]; [done|].
    rewrite !elem_of_app in Hev. destruct Hev as [Hev|[Hev|Hev]].
    - apply list_elem_of_In, in_flat_map in Hev as (d' & Hd' & Hev).
      exists d'. rewrite elem_of_app, !list_elem_of_In. by split; [left|].
    - exists dir. split; [|done]. rewrite elem_of_app, list_elem_of_singleton. by right.
    - apply list_elem_of_singleton in Hev as ->. done. }
  destruct Hprobed as (d' & Hd' & Hev').
  assert (d = d') as <- by (by eapply opens_in_dir_events).
  change (before ++ dir :: after) with (before ++ [dir] ++ after) in Hnodup.
  rewrite app_assoc in Hnodup. apply NoDup_app in Hnodup as (_ & Hdisj & _).
  by eapply Hdisj.
Qed.

Lemma FindTable_stops_at_first_success_witness :
  Cache.table_ (cache_ (initial_state 4)) !! EncodeFixed64 6 = None
  ∧ search_dirs (options_ two_disk_tc) (dbname_ two_disk_tc) 6 = ["a"] ++ "b" :: ["db"]
  ∧ Forall (λ d, dir_fails two_disk_tc 6 100 d = true) ["a"]
  ∧ dir_outcome two_disk_tc 6 100 "b" = Ok legacy_entry
  ∧ ∃ h st',
      FindTable two_disk_tc 6 100 (initial_state 4) = (Ok h, st')
      ∧ trace st'
        = [EvCacheLookup (EncodeFixed64 6);
           EvNewRandomAccessFile "a/000006.ldb";
           EvTableOpen {| file_name := "a/000006.ldb" |} 100;
           EvDeleteFile {| file_name := "a/000006.ldb" |};
           EvNewRandomAccessFile "b/000006.ldb";
           EvNewRandomAccessFile "b/000006.sst";
           EvTableOpen legacy_file 100;
           EvCacheInsert (EncodeFixed64 6) 1]
      ∧ Cache.Value h = legacy_entry.
Proof.
  assert (Hbefore : Forall (λ d, dir_fails two_disk_tc 6 100 d = true) ["a"])
    by (repeat constructor).
  split; [reflexivity|]. split; [reflexivity|]. split; [exact Hbefore|].
  split; [reflexivity|].
  destruct (FindTable_stops_at_first_success two_disk_tc 6 100 (initial_state 4)
              ["a"] "b" ["db"] legacy_entry eq_refl eq_refl Hbefore eq_refl)
    as (h & st' & Hrun & Htrace & _ & _ & Hval & _).
  exists h, st'. split; [exact Hrun|]. split; [exact Htrace|exact Hval].
Defined.

(** C5: in a directory the modern name "<number>.ldb" is opened first and
    the legacy name "<number>.sst" is opened next exactly when that open
    failed; the file that opened is parsed with the expected size, and no
    other file is opened there. A table present only under its
    legacy name in the first directory that does not fail is opened, parsed
    with the expected size, and FindTable returns OK with it. *)
Theorem try_dir_modern_then_legacy
    (tc : TableCache) (file_number file_size : N) (dir : string) :
  let modern := TableFileName dir file_number in
  let legacy := SSTTableFileName dir file_number in
  (∀ st, ∃ calls,
     trace (try_dir tc file_number file_size dir st).2
     = trace st ++ EvNewRandomAccessFile modern :: calls
     ∧ let parse f :=
         EvTableOpen f file_size
         :: match Table_Open (env_ tc) (options_ tc) f file_size with
            | Ok _ => []
            | Err _ => [EvDeleteFile f]
            end in
       match NewRandomAccessFile (env_ tc) modern with
       | Ok f => calls = parse f
       | Err _ =>
           match NewRandomAccessFile (env_ tc) legacy with
           | Ok f => calls = EvNewRandomAccessFile legacy :: parse f
           | Err _ => calls = [EvNewRandomAccessFile legacy]
           end
       end)
  ∧ (∀ st before after e f t,
       Cache.table_ (cache_ st) !! EncodeFixed64 file_number = None →
       search_dirs (options_ tc) (dbname_ tc) file_number = before ++ dir :: after →
       Forall (λ d, dir_fails tc file_number file_size d = true) before →
       NewRandomAccessFile (env_ tc) modern = Err e →
       NewRandomAccessFile (env_ tc) legacy = Ok f →
       Table_Open (env_ tc) (options_ tc) f file_size = Ok t →
       ∃ h st',
         FindTable tc file_number file_size st = (Ok h, st')
         ∧ Cache.Value h = {| file := f; table := t |}
         ∧ trace st'
           = trace st ++ EvCacheLookup (EncodeFixed64 file_number)
             :: flat_map (dir_events tc file_number file_size) before
             ++ [EvNewRandomAccessFile modern; EvNewRandomAccessFile legacy;
                 EvTableOpen f file_size; EvCacheInsert (EncodeFixed64 file_number) 1]).
Proof.
  intros modern legacy. split.
  - intros st. rewrite try_dir_run. unfold dir_events. fold modern legacy.
    eexists. split; [reflexivity|]. cbv zeta.
    destruct (NewRandomAccessFile (env_ tc) modern) as [f|e]; [done|].
    by destruct (NewRandomAccessFile (env_ tc) legacy) as [f|e'].
  - intros st before after e f t Hmiss Hdirs Hbefore Hmodern Hlegacy Hparse.
    assert (Hout : dir_outcome tc file_number file_size dir
                   = Ok {| file := f; table := t |}).
    { unfold dir_outcome. fold modern legacy. by rewrite Hmodern, Hlegacy, Hparse. }
    assert (Hev : dir_events tc file_number file_size dir
                  = [EvNewRandomAccessFile modern; EvNewRandomAccessFile legacy;
                     EvTableOpen f file_size]).
    { unfold dir_events. fold modern legacy. by rewrite Hmodern, Hlegacy, Hparse. }
    rewrite FindTable_miss, Hdirs by done.
    rewrite search_loop_first_success with (tf := {| file := f; table := t |}) by done.
    rewrite emit_emit, Hev.
    match goal with |- context [cache_Insert ?k ?tf 1 DeleteEntry ?s] =>
      destruct (cache_Insert_run k tf s)
        as (h & st' & Hrun & Htrace & _ & _ & Hval & _); rewrite Hrun
    end.
    exists h, st'. split; [done|]. split; [done|].
    rewrite Htrace. unfold emit. simpl.
    rewrite <- app_assoc. simpl. by rewrite <- app_assoc.
Qed.

Lemma try_dir_modern_then_legacy_witness :
  Cache.table_ (cache_ (initial_state 4)) !! EncodeFixed64 6 = None
  ∧ search_dirs (options_ two_disk_tc) (dbname_ two_disk_tc) 6 = ["a"] ++ "b" :: ["db"]
  ∧ Forall (λ d, dir_fails two_disk_tc 6 100 d = true) ["a"]
  ∧ NewRandomAccessFile (env_ two_disk_tc) (TableFileName "b" 6)
    = Err (MkFailure kIOError "b/000006.ldb")
  ∧ NewRandomAccessFile (env_ two_disk_tc) (SSTTableFileName "b" 6) = Ok legacy_file
  ∧ Table_Open (env_ two_disk_tc) (options_ two_disk_tc) legacy_file 100
    = Ok (sample_table legacy_file)
  ∧ ∃ h st',
      FindTable two_disk_tc 6 100 (initial_state 4) = (Ok h, st')
      ∧ Cache.Value h = legacy_entry.
Proof.
  assert (Hbefore : Forall (λ d, dir_fails two_disk_tc 6 100 d = true) ["a"])
    by (repeat constructor).
  do 2 (split; [reflexivity|]). split; [exact Hbefore|].
  do 3 (split; [reflexivity|]).
  destruct (proj2 (try_dir_modern_then_legacy two_disk_tc 6 100 "b")
              (initial_state 4) ["a"] ["db"] (MkFailure kIOError "b/000006.ldb")
              legacy_file (sample_table legacy_file)
              eq_refl eq_refl Hbefore eq_refl eq_refl eq_refl)
    as (h & st' & Hrun & Hval & _).
  exists h, st'. split; [exact Hrun|exact Hval].
Defined.

(** ** The calls FindTable makes *)

Section Calls.
Context (tc : TableCache) (file_number file_size : N).

Local Abbreviation key := (EncodeFixed64 file_number).
Local Abbreviation events := (dir_events tc file_number file_size).
Local Abbreviation fails := (λ dir, dir_fails tc file_number file_size dir = true).
Local Abbreviation no_release := (λ ev, ∀ id, is_release id ev = false).

Lemma dir_events_head dir :
  ∃ calls, events dir = EvNewRandomAccessFile (TableFileName dir file_number) :: calls.
Proof. unfold dir_events. eauto. Qed.

Lemma dir_events_no_release dir : Forall no_release (events dir).
Proof.
  unfold dir_events.
  destruct (NewRandomAccessFile _ (TableFileName _ _)) as [f|e].
  - destruct (Table_Open _ _ f _); by repeat constructor.
  - destruct (NewRandomAccessFile _ (SSTTableFileName _ _)) as [f|e'];
      [|by repeat constructor].
    destruct (Table_Open _ _ f _); by repeat constructor.
Qed.

Lemma flat_map_events_no_release dirs : Forall no_release (flat_map events dirs).
Proof.
  induction dirs as [|d dirs IH]; cbn [flat_map]; [constructor|].
  apply Forall_app. split; [apply dir_events_no_release|exact IH].
Qed.

Lemma count_no_release id calls :
  Forall no_release calls → count_events (is_release id) calls = 0.
Proof.
  unfold count_events. induction 1 as [|ev calls Hev _ IH]; simpl; [done|].
  by rewrite Hev.
Qed.

Lemma count_events_app p calls1 calls2 :
  count_events p (calls1 ++ calls2) = count_events p calls1 + count_events p calls2.
Proof. unfold count_events. by rewrite List.filter_app, length_app. Qed.

Lemma count_events_cons p ev calls :
  count_events p (ev :: calls) = (if p ev then 1 else 0) + count_events p calls.
Proof. unfold count_events. simpl. by destruct (p ev). Qed.

(** The loop only adds calls to the record: probes and at most one
    insertion, starting with the open of the modern name in the first
    directory. On success the new handle is the entry of record. *)
Lemma search_loop_calls dirs last_status st :
  ∃ calls,
    trace (search_loop tc file_number file_size key dirs last_status st).2
    = trace st ++ calls
    ∧ Forall no_release calls
    ∧ (∀ d rest, dirs = d :: rest →
         ∃ calls', calls = EvNewRandomAccessFile (TableFileName d file_number) :: calls')
    ∧ (∀ h, (search_loop tc file_number file_size key dirs last_status st).1 = Ok h →
         Cache.table_ (cache_ (search_loop tc file_number file_size key dirs last_status st).2)
           !! key = Some h
         ∧ Cache.handle_id h = Cache.next_id (cache_ st)).
Proof.
  destruct (first_success_split tc file_number file_size dirs)
    as [Hall|(before & dir & after & tf & -> & Hbefore & Hok)].
  - rewrite search_loop_all_fail by done. exists (flat_map events dirs).
    split; [done|]. split; [apply flat_map_events_no_release|]. split; [|done].
    intros d rest ->. cbn [flat_map]. destruct (dir_events_head d) as [calls ->].
    simpl. eauto.
  - rewrite search_loop_first_success with (tf := tf) by done.
    match goal with |- context [cache_Insert ?k ?v 1 DeleteEntry ?s] =>
      destruct (cache_Insert_run k v s)
        as (h & st' & Hrun & Htrace & Hid & _ & _ & _ & _ & Htab & _); rewrite Hrun
    end.
    exists (flat_map events before ++ events dir ++ [EvCacheInsert key 1]).
    cbn [fst snd]. rewrite Htrace. unfold emit; cbn [trace cache_]. split.
    { by rewrite <- !app_assoc. }
    split.
    { rewrite !Forall_app. split; [apply flat_map_events_no_release|].
      split; [apply dir_events_no_release|by repeat constructor]. }
    split.
    + intros d rest Hd. destruct before as [|d' before]; cbn [app flat_map] in Hd |- *;
        inversion Hd; subst; destruct (dir_events_head d) as [calls ->]; simpl; eauto.
    + intros h' [= <-]. by split.
Qed.

Lemma FindTable_calls st :
  ∃ calls,
    trace (FindTable tc file_number file_size st).2 = trace st ++ EvCacheLookup key :: calls
    ∧ Forall no_release calls.
Proof.
  destruct (Cache.table_ (cache_ st) !! key) as [h|] eqn:Hkey.
  - rewrite FindTable_hit with (h := h) by done. exists []. by split.
  - rewrite FindTable_miss by done.
    destruct (search_loop_calls (search_dirs (options_ tc) (dbname_ tc) file_number)
                (NotFound "table file not found") (emit [EvCacheLookup key] st))
      as (calls & Htrace & Hnr & _).
    exists calls. split; [|done]. rewrite Htrace. simpl. by rewrite <- app_assoc.
Qed.

(** After a successful FindTable the handle returned is the entry of record
    of the key. *)
Lemma FindTable_ok_in_table st h st' :
  FindTable tc file_number file_size st = (Ok h, st') →
  Cache.table_ (cache_ st') !! key = Some h.
Proof.
  destruct (Cache.table_ (cache_ st) !! key) as [h0|] eqn:Hkey.
  - rewrite FindTable_hit with (h := h0) by done. by intros [= <- <-].
  - rewrite FindTable_miss by done. intros Hrun.
    destruct (search_loop_calls (search_dirs (options_ tc) (dbname_ tc) file_number)
                (NotFound "table file not found") (emit [EvCacheLookup key] st))
      as (_ & _ & _ & _ & Hok).
    rewrite Hrun in Hok. by apply Hok.
Qed.

End Calls.

(** ** Releasing a handle *)

Lemma cache_Release_run (h : Cache.Handle TableAndFile) (st : State) :
  cache_Release h st
  = (tt, {| cache_ := (Cache.Release (cache_ st) h).1;
            trace := trace st ++ [EvCacheRelease (Cache.handle_id h)];
            reclaimed := reclaimed st ++ (Cache.Release (cache_ st) h).2 |}).
Proof. unfold cache_Release. by destruct (Cache.Release (cache_ st) h). Qed.

Lemma is_release_self (id : nat) : is_release id (EvCacheRelease id) = true.
Proof. simpl. apply Nat.eqb_refl. Qed.

Lemma iter_cleanup_Next (it : Iterator) (steps : nat) :
  iter_cleanup (Nat.iter steps Next it) = iter_cleanup it.
Proof. induction steps as [|steps IH]; simpl; [done|exact IH]. Qed.

Lemma release_times_S (h : Cache.Handle TableAndFile) (times : nat) (st : State) :
  release_times h (S times) st = (cache_Release h (release_times h times st)).2.
Proof. reflexivity. Qed.

(** While other references remain, releases destroy nothing. *)
Lemma release_times_shared (h : Cache.Handle TableAndFile) (times : nat) :
  ∀ (st : State) (refs : nat),
    Cache.refs_ (cache_ st) !! Cache.handle_id h = Some (S refs) →
    (times ≤ refs)%nat →
    reclaimed (release_times h times st) = reclaimed st
    ∧ Cache.refs_ (cache_ (release_times h times st)) !! Cache.handle_id h
      = Some (S refs - times).
Proof.
  induction times as [|times IH]; intros st refs Hrefs Hle.
  - simpl. split; [done|]. rewrite Hrefs. f_equal; lia.
  - destruct (IH st refs Hrefs) as [Hrec Hcount]; [lia|].
    rewrite release_times_S, cache_Release_run. cbn [snd].
    replace (S refs - times) with (S (S (refs - S times))) in Hcount by lia.
    destruct (Unref_shared _ _ _ Hcount) as [Hevs Hrefs'].
    unfold Cache.Release. cbn [reclaimed cache_]. rewrite Hevs, Hrefs', app_nil_r.
    split; [exact Hrec|]. f_equal; lia.
Qed.

(** ** FindTable: the hit path *)

(** C3: when the key of the file number has an entry in the handle cache,
    FindTable returns OK with a handle to that entry; the only call made is
    the cache lookup, nothing is opened, parsed or destroyed, and the table
    of the cache is unchanged. Hence, after a successful FindTable, a second
    FindTable for the same file number returns the same handle with the
    lookup as its only call. *)
Theorem FindTable_hit_no_io (tc : TableCache) (file_number file_size : N) :
  let key := EncodeFixed64 file_number in
  (∀ st h,
     Cache.table_ (cache_ st) !! key = Some h →
     ∃ st',
       FindTable tc file_number file_size st = (Ok h, st')
       ∧ trace st' = trace st ++ [EvCacheLookup key]
       ∧ count_events is_io (trace st') = count_events is_io (trace st)
       ∧ reclaimed st' = reclaimed st
       ∧ Cache.table_ (cache_ st') = Cache.table_ (cache_ st))
  ∧ (∀ st h st1,
       FindTable tc file_number file_size st = (Ok h, st1) →
       ∃ st2,
         FindTable tc file_number file_size st1 = (Ok h, st2)
         ∧ trace st2 = trace st1 ++ [EvCacheLookup key]
         ∧ count_events is_io (trace st2) = count_events is_io (trace st1)).
Proof.
  intros key.
  assert (Hhit : ∀ st h,
    Cache.table_ (cache_ st) !! key = Some h →
    ∃ st',
      FindTable tc file_number file_size st = (Ok h, st')
      ∧ trace st' = trace st ++ [EvCacheLookup key]
      ∧ count_events is_io (trace st') = count_events is_io (trace st)
      ∧ reclaimed st' = reclaimed st
      ∧ Cache.table_ (cache_ st') = Cache.table_ (cache_ st)).
  { intros st h Hh. rewrite FindTable_hit with (h := h) by done.
    eexists. split; [reflexivity|]. simpl. repeat split.
    rewrite count_events_app.
    change (count_events is_io [EvCacheLookup (EncodeFixed64 file_number)]) with 0. lia. }
  split; [exact Hhit|].
  intros st h st1 Hfirst. apply FindTable_ok_in_table in Hfirst.
  destruct (Hhit st1 h Hfirst) as (st2 & Hrun & Htrace & Hio & _).
  by exists st2.
Qed.

Lemma FindTable_hit_no_io_witness :
  Cache.table_ (cache_ resolved_state) !! EncodeFixed64 6 = Some legacy_handle
  ∧ FindTable two_disk_tc 6 100 (initial_state 4) = (Ok legacy_handle, resolved_state)
  ∧ (∃ st',
       FindTable two_disk_tc 6 100 resolved_state = (Ok legacy_handle, st')
       ∧ trace st' = trace resolved_state ++ [EvCacheLookup (EncodeFixed64 6)])
  ∧ (∃ st2,
       FindTable two_disk_tc 6 100 resolved_state = (Ok legacy_handle, st2)
       ∧ count_events is_io (trace st2) = count_events is_io (trace resolved_state)).
Proof.
  assert (Hcached : Cache.table_ (cache_ resolved_state) !! EncodeFixed64 6
                    = Some legacy_handle) by reflexivity.
  assert (Hfirst : FindTable two_disk_tc 6 100 (initial_state 4)
                   = (Ok legacy_handle, resolved_state)) by reflexivity.
  split; [exact Hcached|]. split; [exact Hfirst|]. split.
  - destruct (proj1 (FindTable_hit_no_io two_disk_tc 6 100) resolved_state
                legacy_handle Hcached) as (st' & Hrun & Htrace & _).
    exists st'. split; [exact Hrun|exact Htrace].
  - destruct (proj2 (FindTable_hit_no_io two_disk_tc 6 100) (initial_state 4)
                legacy_handle resolved_state Hfirst) as (st2 & Hrun & _ & Hio).
    exists st2. split; [exact Hrun|exact Hio].
Defined.

(** ** NewIterator *)

(** C6: when resolution fails, NewIterator returns the error iterator of
    the failure: it has no record, is never valid, and its status is the
    failure returned by FindTable, which is not OK. *)
Theorem NewIterator_resolution_failure
    (tc : TableCache) (options : ReadOptions) (file_number file_size : N)
    (st : State) (e : Failure) (st' : State) :
  FindTable tc file_number file_size st = (Err e, st') →
  ∃ it,
    NewIterator tc options file_number file_size st = (it, None, st')
    ∧ iter_records it = []
    ∧ (∀ steps, Valid (Nat.iter steps Next it) = false)
    ∧ iter_status it = NotOK e
    ∧ ok (iter_status it) = false
    ∧ iter_cleanup it = [].
Proof.
  intros Hfind. exists (NewErrorIterator (NotOK e)).
  unfold NewIterator. cbv [mbind M_bind mret M_ret]. rewrite Hfind.
  repeat split. intros steps. unfold Valid.
  assert (Hrec : iter_records (Nat.iter steps Next (NewErrorIterator (NotOK e))) = []).
  { induction steps as [|steps IH]; simpl; [done|exact IH]. }
  rewrite Hrec. apply Nat.ltb_ge. simpl. lia.
Qed.

Lemma NewIterator_resolution_failure_witness :
  FindTable empty_disk_tc 7 100 (initial_state 4)
  = (Err (MkFailure kIOError "db/000007.ldb"),
     (FindTable empty_disk_tc 7 100 (initial_state 4)).2)
  ∧ ∃ it,
      NewIterator empty_disk_tc default_read_options 7 100 (initial_state 4)
      = (it, None, (FindTable empty_disk_tc 7 100 (initial_state 4)).2)
      ∧ iter_records it = []
      ∧ iter_status it = NotOK (MkFailure kIOError "db/000007.ldb").
Proof.
  assert (Hfind : FindTable empty_disk_tc 7 100 (initial_state 4)
                  = (Err (MkFailure kIOError "db/000007.ldb"),
                     (FindTable empty_disk_tc 7 100 (initial_state 4)).2))
    by reflexivity.
  split; [exact Hfind|].
  destruct (NewIterator_resolution_failure empty_disk_tc default_read_options 7 100
              (initial_state 4) _ _ Hfind) as (it & Hrun & Hrec & _ & Hstatus & _).
  exists it. split; [exact Hrun|]. split; [exact Hrec|exact Hstatus].
Defined.

(** C7: on success NewIterator returns the iterator of the resolved table
    with exactly one cleanup registered, [UnrefEntry] of the handle that
    FindTable returned. Destroying the iterator, after any number of steps,
    runs that cleanup once: the handle is released once, and it is the only
    release of the handle since NewIterator was called. When the entry had
    other references, the release destroys nothing. *)
Theorem NewIterator_registers_single_release
    (tc : TableCache) (options : ReadOptions) (file_number file_size : N)
    (st : State) (h : Cache.Handle TableAndFile) (st1 : State) :
  FindTable tc file_number file_size st = (Ok h, st1) →
  let t := table (Cache.Value h) in
  ∃ it st2,
    NewIterator tc options file_number file_size st = (it, Some t, st2)
    ∧ st2 = emit [EvTableNewIterator t] st1
    ∧ iter_records it = table_records t options
    ∧ iter_cleanup it = [UnrefEntry h]
    ∧ ∀ consumed,
        let st3 := (DeleteIterator (Nat.iter consumed Next it) st2).2 in
        st3 = (cache_Release h st2).2
        ∧ cache_ st3 = (Cache.Release (cache_ st1) h).1
        ∧ (∃ calls, trace st3 = trace st ++ calls
                    ∧ count_events (is_release (Cache.handle_id h)) calls = 1)
        ∧ (∀ refs,
             Cache.refs_ (cache_ st1) !! Cache.handle_id h = Some (S (S refs)) →
             Cache.refs_ (cache_ st3) !! Cache.handle_id h = Some (S refs)
             ∧ reclaimed st3 = reclaimed st1).
Proof.
  intros Hfind t.
  unfold NewIterator. cbv [mbind M_bind mret M_ret table_NewIterator].
  rewrite Hfind. fold t. eexists _, _. split; [reflexivity|].
  split; [reflexivity|]. split; [reflexivity|]. split; [reflexivity|].
  intros consumed. cbv zeta. unfold DeleteIterator. rewrite iter_cleanup_Next.
  cbn [iter_cleanup RegisterCleanup app run_cleanups]. cbv [mbind M_bind mret M_ret].
  unfold UnrefEntry. rewrite cache_Release_run. cbn [snd cache_ trace reclaimed emit].
  split; [reflexivity|]. split; [reflexivity|]. split.
  - destruct (FindTable_calls tc file_number file_size st) as (calls & Htrace & Hnr).
    rewrite Hfind in Htrace. cbn [snd] in Htrace. rewrite Htrace.
    eexists. rewrite <- !app_assoc. split; [reflexivity|].
    cbn [app]. rewrite count_events_cons, count_events_app.
    rewrite (count_no_release _ calls Hnr), !count_events_cons.
    cbn [is_release]. by rewrite Nat.eqb_refl.
  - intros refs Hrefs. cbn [cache_ reclaimed]. unfold Cache.Release.
    destruct (Unref_shared _ _ _ Hrefs) as [-> ->]. by rewrite app_nil_r.
Qed.

Lemma NewIterator_registers_single_release_witness :
  FindTable two_disk_tc 6 100 (initial_state 4) = (Ok legacy_handle, resolved_state)
  ∧ ∃ it st2,
      NewIterator two_disk_tc default_read_options 6 100 (initial_state 4)
      = (it, Some (sample_table legacy_file), st2)
      ∧ iter_records it = [("k1", "v1"); ("k2", "v2")]
      ∧ iter_cleanup it = [UnrefEntry legacy_handle]
      ∧ Cache.refs_ (cache_ (DeleteIterator (Next it) st2).2) !! 0 = Some 1.
Proof.
  assert (Hfind : FindTable two_disk_tc 6 100 (initial_state 4)
                  = (Ok legacy_handle, resolved_state)) by reflexivity.
  split; [exact Hfind|].
  destruct (NewIterator_registers_single_release two_disk_tc default_read_options 6 100
              (initial_state 4) legacy_handle resolved_state Hfind)
    as (it & st2 & Hrun & _ & Hrec & Hclean & Hdel).
  exists it, st2. split; [exact Hrun|]. split; [exact Hrec|]. split; [exact Hclean|].
  destruct (Hdel 1) as (_ & _ & _ & Hrefs).
  exact (proj1 (Hrefs 0 eq_refl)).
Defined.

(** ** Get *)

(** C8: when resolution succeeds, Get calls the point lookup of the
    resolved table and then releases the handle, whatever the lookup
    returned; the status and the visited record of the lookup are returned
    unchanged, and the release is the only release of the handle during the
    call. *)
Theorem Get_releases_once
    (tc : TableCache) (options : ReadOptions) (file_number file_size : N) (k : Slice)
    (st : State) (h : Cache.Handle TableAndFile) (st1 : State) :
  FindTable tc file_number file_size st = (Ok h, st1) →
  let t := table (Cache.Value h) in
  ∃ st',
    Get tc options file_number file_size k st = (InternalGet t options k, st')
    ∧ st' = (cache_Release h (emit [EvInternalGet t k] st1)).2
    ∧ cache_ st' = (Cache.Release (cache_ st1) h).1
    ∧ trace st' = trace st1 ++ [EvInternalGet t k; EvCacheRelease (Cache.handle_id h)]
    ∧ (∃ calls, trace st' = trace st ++ calls
                ∧ count_events (is_release (Cache.handle_id h)) calls = 1)
    ∧ (∀ refs,
         Cache.refs_ (cache_ st1) !! Cache.handle_id h = Some (S (S refs)) →
         Cache.refs_ (cache_ st') !! Cache.handle_id h = Some (S refs)
         ∧ reclaimed st' = reclaimed st1).
Proof.
  intros Hfind t.
  unfold Get. cbv [mbind M_bind mret M_ret table_InternalGet].
  rewrite Hfind. fold t. destruct (InternalGet t options k) as [s visited].
  rewrite cache_Release_run. cbn [snd cache_ trace reclaimed emit].
  eexists. split; [reflexivity|]. split; [reflexivity|]. split; [reflexivity|].
  split; [by rewrite <- app_assoc|]. split.
  - destruct (FindTable_calls tc file_number file_size st) as (calls & Htrace & Hnr).
    rewrite Hfind in Htrace. cbn [snd] in Htrace. rewrite Htrace.
    eexists. rewrite <- !app_assoc. split; [reflexivity|].
    cbn [app]. rewrite count_events_cons, count_events_app.
    rewrite (count_no_release _ calls Hnr), !count_events_cons.
    cbn [is_release]. by rewrite Nat.eqb_refl.
  - intros refs Hrefs. cbn [cache_ reclaimed]. unfold Cache.Release.
    destruct (Unref_shared _ _ _ Hrefs) as [-> ->]. by rewrite app_nil_r.
Qed.

Lemma Get_releases_once_witness :
  FindTable two_disk_tc 6 100 (initial_state 4) = (Ok legacy_handle, resolved_state)
  ∧ (∃ st', Get two_disk_tc default_read_options 6 100 "k1" (initial_state 4)
            = ((OK, Some ("k1", "v1")), st')
            ∧ Cache.refs_ (cache_ st') !! 0 = Some 1)
  ∧ (∃ st', Get two_disk_tc default_read_options 6 100 "bad" (initial_state 4)
            = ((NotOK (MkFailure kCorruption "bad block"), None), st')
            ∧ Cache.refs_ (cache_ st') !! 0 = Some 1).
Proof.
  assert (Hfind : FindTable two_disk_tc 6 100 (initial_state 4)
                  = (Ok legacy_handle, resolved_state)) by reflexivity.
  split; [exact Hfind|]. split.
  - destruct (Get_releases_once two_disk_tc default_read_options 6 100 "k1"
                (initial_state 4) legacy_handle resolved_state Hfind)
      as (st' & Hrun & _ & _ & _ & _ & Hrefs).
    exists st'. split; [exact Hrun|exact (proj1 (Hrefs 0 eq_refl))].
  - destruct (Get_releases_once two_disk_tc default_read_options 6 100 "bad"
                (initial_state 4) legacy_handle resolved_state Hfind)
      as (st' & Hrun & _ & _ & _ & _ & Hrefs).
    exists st'. split; [exact Hrun|exact (proj1 (Hrefs 0 eq_refl))].
Defined.

(** ** An invariant of the handle cache under the table cache operations *)

Section Invariant.
Context (tc : TableCache) (file_number file_size : N).

Lemma ids_below_next_initial entries : Cache.ids_below_next (cache_ (initial_state entries)).
Proof. apply ids_below_next_new. Qed.

Lemma ids_below_next_FindTable st :
  Cache.ids_below_next (cache_ st) →
  Cache.ids_below_next (cache_ (FindTable tc file_number file_size st).2).
Proof.
  intros Hinv.
  destruct (Cache.table_ (cache_ st) !! EncodeFixed64 file_number) as [h|] eqn:Hkey.
  - by rewrite FindTable_hit with (h := h).
  - rewrite FindTable_miss by done.
    destruct (first_success_split tc file_number file_size
                (search_dirs (options_ tc) (dbname_ tc) file_number))
      as [Hall|(before & dir & after & tf & -> & Hbefore & Hok)].
    + by rewrite search_loop_all_fail.
    + rewrite search_loop_first_success with (tf := tf) by done.
      unfold cache_Insert. cbn [cache_ emit].
      pose proof (ids_below_next_Insert (cache_ st) (EncodeFixed64 file_number)
                    tf 1 DeleteEntry Hinv) as Hins.
      by destruct (Cache.Insert _ _ _ _ _) as [[h c] evs].
Qed.

Lemma ids_below_next_Get options k st :
  Cache.ids_below_next (cache_ st) →
  Cache.ids_below_next (cache_ (Get tc options file_number file_size k st).2).
Proof.
  intros Hinv. apply ids_below_next_FindTable in Hinv.
  unfold Get. cbv [mbind M_bind mret M_ret table_InternalGet].
  destruct (FindTable tc file_number file_size st) as [[h|e] st1]; [|done].
  destruct (InternalGet _ options k) as [s visited].
  rewrite cache_Release_run. cbn [snd cache_ emit].
  by apply ids_below_next_Release.
Qed.

Lemma ids_below_next_NewIterator options st :
  Cache.ids_below_next (cache_ st) →
  Cache.ids_below_next (cache_ (NewIterator tc options file_number file_size st).2).
Proof.
  intros Hinv. apply ids_below_next_FindTable in Hinv.
  unfold NewIterator. cbv [mbind M_bind mret M_ret table_NewIterator].
  by destruct (FindTable tc file_number file_size st) as [[h|e] st1].
Qed.

Lemma Evict_run st :
  Evict file_number st
  = (tt, {| cache_ := (Cache.Erase (cache_ st) (EncodeFixed64 file_number)).1;
            trace := trace st ++ [EvCacheErase (EncodeFixed64 file_number)];
            reclaimed := reclaimed st
                         ++ (Cache.Erase (cache_ st) (EncodeFixed64 file_number)).2 |}).
Proof. unfold Evict, cache_Erase. by destruct (Cache.Erase _ _). Qed.

(** Evicting one file number leaves the entries of the others in place. *)
Lemma Evict_other_key (other : N) st :
  (file_number < 2 ^ 64)%N → (other < 2 ^ 64)%N → other ≠ file_number →
  Cache.table_ (cache_ (Evict file_number st).2) !! EncodeFixed64 other
  = Cache.table_ (cache_ st) !! EncodeFixed64 other.
Proof.
  intros Hn Hm Hne. rewrite Evict_run. cbn [snd cache_].
  destruct (Erase_frame (cache_ st) (EncodeFixed64 file_number)) as [_ ->].
  apply lookup_delete_ne. intros Heq. apply Hne. symmetry. by apply EncodeFixed64_inj.
Qed.

Lemma ids_below_next_Evict st :
  Cache.ids_below_next (cache_ st) →
  Cache.ids_below_next (cache_ (Evict file_number st).2).
Proof. intros Hinv. rewrite Evict_run. by apply ids_below_next_Erase. Qed.

End Invariant.

(** ** Evict *)

(** C9: Evict erases the key of the file number from the handle cache at
    once and makes no other call. A FindTable of the same file number issued
    next misses the cache and runs the directory search again, starting with
    the first directory of the search path, and a handle it returns is not the
    one of the erased entry. While handles to the erased entry are
    outstanding the entry is not destroyed; its destructor runs when the last
    of them is released. *)
Theorem Evict_erases_entry (tc : TableCache) (file_number file_size : N) (st : State) :
  let key := EncodeFixed64 file_number in
  let dirs := search_dirs (options_ tc) (dbname_ tc) file_number in
  let st' := (Evict file_number st).2 in
  cache_ st' = (Cache.Erase (cache_ st) key).1
  ∧ trace st' = trace st ++ [EvCacheErase key]
  ∧ Cache.table_ (cache_ st') = delete key (Cache.table_ (cache_ st))
  ∧ Cache.table_ (cache_ st') !! key = None
  ∧ FindTable tc file_number file_size st'
    = search_loop tc file_number file_size key dirs
        (NotFound "table file not found") (emit [EvCacheLookup key] st')
  ∧ (∀ d rest, dirs = d :: rest →
       ∃ calls,
         trace (FindTable tc file_number file_size st').2
         = trace st' ++ EvCacheLookup key
           :: EvNewRandomAccessFile (TableFileName d file_number) :: calls)
  ∧ (∀ h h' st'',
       Cache.table_ (cache_ st) !! key = Some h →
       Cache.ids_below_next (cache_ st) →
       FindTable tc file_number file_size st' = (Ok h', st'') →
       Cache.handle_id h' ≠ Cache.handle_id h)
  ∧ (∀ h refs,
       Cache.table_ (cache_ st) !! key = Some h →
       Cache.refs_ (cache_ st) !! Cache.handle_id h = Some (S (S refs)) →
       reclaimed st' = reclaimed st
       ∧ (∀ times, (times ≤ refs)%nat →
            reclaimed (release_times h times st') = reclaimed st)
       ∧ reclaimed (release_times h (S refs) st')
         = reclaimed st
           ++ Cache.handle_deleter h (Cache.handle_key h) (Cache.handle_value h)).
Proof.
  cbv zeta. rewrite Evict_run. cbn [snd cache_ trace reclaimed].
  destruct (Erase_frame (cache_ st) (EncodeFixed64 file_number)) as [Hnext Htable].
  assert (Hgone : Cache.table_ (Cache.Erase (cache_ st) (EncodeFixed64 file_number)).1
                    !! EncodeFixed64 file_number = None)
    by apply Erase_lookup.
  set (st' := {| cache_ := (Cache.Erase (cache_ st) (EncodeFixed64 file_number)).1;
                 trace := trace st ++ [EvCacheErase (EncodeFixed64 file_number)];
                 reclaimed := reclaimed st
                   ++ (Cache.Erase (cache_ st) (EncodeFixed64 file_number)).2 |}).
  assert (Hmiss : FindTable tc file_number file_size st'
                  = search_loop tc file_number file_size (EncodeFixed64 file_number)
                      (search_dirs (options_ tc) (dbname_ tc) file_number)
                      (NotFound "table file not found")
                      (emit [EvCacheLookup (EncodeFixed64 file_number)] st'))
    by (by apply FindTable_miss).
  do 4 (split; [done|]). split; [exact Hmiss|].
  destruct (search_loop_calls tc file_number file_size
              (search_dirs (options_ tc) (dbname_ tc) file_number)
              (NotFound "table file not found")
              (emit [EvCacheLookup (EncodeFixed64 file_number)] st'))
    as (calls & Htrace & _ & Hhead & Hfresh).
  rewrite <- Hmiss in Htrace, Hfresh.
  split; [|split].
  - intros d rest Hd. destruct (Hhead d rest Hd) as [calls' ->].
    exists calls'. rewrite Htrace. cbn [trace emit]. by rewrite <- app_assoc.
  - intros h h' st'' Hh Hinv Hfind. rewrite Hfind in Hfresh.
    destruct (Hfresh h' eq_refl) as [_ Hid]. cbn [cache_ emit st'] in Hid.
    rewrite Hid, Hnext. apply Hinv in Hh. simpl in Hh. lia.
  - intros h refs Hh Hrefs.
    assert (Herase : (Cache.Erase (cache_ st) (EncodeFixed64 file_number)).2 = []
                     ∧ Cache.refs_ (Cache.Erase (cache_ st) (EncodeFixed64 file_number)).1
                         !! Cache.handle_id h
                       = Some (S refs)).
    { unfold Cache.Erase. rewrite Hh. unfold Cache.FinishErase.
      by apply Unref_shared. }
    destruct Herase as [Hevs Hrefs'].
    assert (Hrec : reclaimed st' = reclaimed st).
    { subst st'. cbn [reclaimed]. by rewrite Hevs, app_nil_r. }
    split; [exact Hrec|]. split.
    + intros times Hle.
      destruct (release_times_shared h times st' refs Hrefs' Hle) as [-> _]. exact Hrec.
    + rewrite release_times_S, cache_Release_run. cbn [snd reclaimed].
      destruct (release_times_shared h refs st' refs Hrefs' (Nat.le_refl _))
        as [-> Hone].
      replace (S refs - refs) with 1 in Hone by lia.
      unfold Cache.Release. destruct (Unref_last _ _ Hone) as [-> _].
      by rewrite Hrec.
Qed.

Lemma Evict_erases_entry_witness :
  Cache.table_ (cache_ resolved_state) !! EncodeFixed64 6 = Some legacy_handle
  ∧ Cache.ids_below_next (cache_ resolved_state)
  ∧ Cache.refs_ (cache_ resolved_state) !! 0 = Some 2
  ∧ search_dirs (options_ two_disk_tc) (dbname_ two_disk_tc) 6 = "a" :: ["b"; "db"]
  ∧ Cache.table_ (cache_ (Evict 6 resolved_state).2) !! EncodeFixed64 6 = None
  ∧ (∃ calls,
       trace (FindTable two_disk_tc 6 100 (Evict 6 resolved_state).2).2
       = trace (Evict 6 resolved_state).2 ++ EvCacheLookup (EncodeFixed64 6)
         :: EvNewRandomAccessFile (TableFileName "a" 6) :: calls)
  ∧ (∀ h' st'',
       FindTable two_disk_tc 6 100 (Evict 6 resolved_state).2 = (Ok h', st'') →
       Cache.handle_id h' ≠ 0)
  ∧ reclaimed (Evict 6 resolved_state).2 = []
  ∧ reclaimed (release_times legacy_handle 1 (Evict 6 resolved_state).2)
    = [EvDeleteTable (sample_table legacy_file); EvDeleteFile legacy_file].
Proof.
  assert (Hcached : Cache.table_ (cache_ resolved_state) !! EncodeFixed64 6
                    = Some legacy_handle) by reflexivity.
  assert (Hinv : Cache.ids_below_next (cache_ resolved_state)).
  { apply ids_below_next_FindTable, ids_below_next_initial. }
  assert (Hrefs : Cache.refs_ (cache_ resolved_state) !! Cache.handle_id legacy_handle
                  = Some 2) by reflexivity.
  destruct (Evict_erases_entry two_disk_tc 6 100 resolved_state)
    as (_ & _ & _ & Hgone & _ & Hsearch & Hfresh & Hdefer).
  split; [exact Hcached|]. split; [exact Hinv|]. split; [exact Hrefs|].
  split; [reflexivity|]. split; [exact Hgone|].
  split; [exact (Hsearch "a" ["b"; "db"] eq_refl)|].
  split; [exact (λ h' st'', Hfresh legacy_handle h' st'' Hcached Hinv)|].
  destruct (Hdefer legacy_handle 0 Hcached Hrefs) as (Hkept & _ & Hdestroyed).
  split; [exact Hkept|exact Hdestroyed].
Defined.

(** * Further properties *)

(** ** The search path *)

Lemma push_unique_dir_length acc dir :
  (length (push_unique_dir acc dir) ≤ S (length acc))%nat.
Proof.
  unfold push_unique_dir. destruct (String.eqb dir EmptyString); [lia|].
  destruct (existsb _ _); [lia|]. rewrite length_app. simpl. lia.
Qed.

Lemma fold_push_unique_length {A} (f : A → string) (idxs : list A) : ∀ acc,
  (length (fold_left (fun acc i => push_unique_dir acc (f i)) idxs acc)
   ≤ length acc + length idxs)%nat.
Proof.
  induction idxs as [|i idxs IH]; intros acc; simpl; [lia|].
  etrans; [apply IH|]. pose proof (push_unique_dir_length acc (f i)). lia.
Qed.

Lemma search_dirs_length (options_ : Options) (dbname_ : string) (file_number : N) :
  (length (search_dirs options_ dbname_ file_number)
   ≤ (if enable_multi_disk options_ then length (data_dirs options_) else 0) + 1)%nat.
Proof.
  unfold search_dirs.
  etrans; [apply push_unique_dir_length|].
  destruct (enable_multi_disk options_); simpl; [|lia].
  destruct (negb _); simpl; [|lia].
  pose proof (fold_push_unique_length
    (λ i, nth ((N.to_nat (file_number mod N.of_nat (length (data_dirs options_))) + i)
               mod length (data_dirs options_)) (data_dirs options_) EmptyString)
    (seq 0 (length (data_dirs options_))) []) as Hlen.
  rewrite length_seq in Hlen. simpl in Hlen. lia.
Qed.

(** X1: the search path never names a directory twice, never contains an
    empty name, and has at most one directory more than the alternates in
    use. *)
Theorem search_dirs_distinct_nonempty_bounded
    (options_ : Options) (dbname_ : string) (file_number : N) :
  NoDup (search_dirs options_ dbname_ file_number)
  ∧ Forall (λ d, d ≠ EmptyString) (search_dirs options_ dbname_ file_number)
  ∧ (length (search_dirs options_ dbname_ file_number)
     ≤ (if enable_multi_disk options_ then length (data_dirs options_) else 0) + 1)%nat.
Proof.
  split; [apply search_dirs_NoDup|]. split; [apply search_dirs_nonempty_names|].
  apply search_dirs_length.
Qed.

Lemma drop_repeats_elem_of l : ∀ seen d,
  d ∈ drop_repeats seen l ↔ d ∈ l ∧ d ∉ seen.
Proof.
  induction l as [|x l IH]; intros seen d; simpl.
  - split; [intros H; by apply not_elem_of_nil in H|intros [H _]; by apply not_elem_of_nil in H].
  - case_bool_decide as Hx.
    + rewrite IH, elem_of_cons. split; [intros [? ?]; by split; [right|]|].
      intros [[->|Hd] Hns]; [done|by split].
    + rewrite !elem_of_cons, IH, elem_of_cons. split.
      * intros [->|[Hd Hns]]; [by split; [left|]|].
        split; [by right|]. intros Hin. apply Hns. by right.
      * intros [[->|Hd] Hns]; [by left|].
        destruct (decide (d = x)) as [->|Hne]; [by left|].
        right. split; [done|]. by intros [?|?].
Qed.

Lemma circular_index (n start j : nat) :
  (j < n)%nat → ∃ i, (i < n)%nat ∧ (start + i) mod n = j.
Proof.
  intros Hj. exists ((j + n - start mod n) mod n).
  assert (Hn : n ≠ 0) by lia.
  split; [by apply Nat.mod_upper_bound|].
  rewrite Nat.Div0.add_mod_idemp_r.
  pose proof (Nat.mod_upper_bound start n Hn) as Hs.
  pose proof (Nat.div_mod_eq start n) as Hdm.
  replace (start + (j + n - start mod n)) with (j + S (start / n) * n) by nia.
  rewrite Nat.Div0.mod_add. by apply Nat.mod_small.
Qed.

Lemma circular_from_elem_of start l d : d ∈ circular_from start l ↔ d ∈ l.
Proof.
  split; [apply circular_from_subseteq|].
  intros Hd. apply list_elem_of_In, (In_nth _ _ EmptyString) in Hd as (j & Hj & <-).
  destruct (circular_index (length l) start j Hj) as (i & Hi & Hij).
  unfold circular_from. apply list_elem_of_In, in_map_iff.
  exists i. split; [by rewrite Hij|]. apply in_seq. lia.
Qed.

(** X2: a directory is probed exactly when its name is not empty and it is
    the primary directory or, with multi-directory mode on, one of the
    configured alternates. *)
Theorem search_dirs_membership
    (options_ : Options) (dbname_ : string) (file_number : N) (d : string) :
  d ∈ search_dirs options_ dbname_ file_number
  ↔ d ≠ EmptyString
    ∧ (d = dbname_ ∨ (enable_multi_disk options_ = true ∧ d ∈ data_dirs options_)).
Proof.
  rewrite search_dirs_as_filter, list_elem_of_filter. unfold spec_search_path.
  apply and_iff_compat_l.
  destruct (enable_multi_disk options_); simpl.
  - case_bool_decide as Hnil; simpl.
    + rewrite Hnil, list_elem_of_singleton. split; [by left|].
      intros [?|[_ Hin]]; [done|]. by apply not_elem_of_nil in Hin.
    + assert (Huniq : ∀ x,
        x ∈ drop_repeats []
              (circular_from
                 (N.to_nat (file_number mod N.of_nat (length (data_dirs options_))))
                 (data_dirs options_))
        ↔ x ∈ data_dirs options_).
      { intros x. rewrite drop_repeats_elem_of, circular_from_elem_of.
        split; [by intros [? _]|]. intros Hx. split; [done|apply not_elem_of_nil]. }
      case_bool_decide as Hprimary.
      * rewrite Huniq. split; [by right|].
        intros [->|[_ Hin]]; [by apply Huniq|done].
      * rewrite elem_of_app, list_elem_of_singleton, Huniq.
        split; [intros [?|?]; [by right|by left]|].
        intros [?|[_ ?]]; [by right|by left].
  - rewrite list_elem_of_singleton. split; [by left|]. by intros [?|[? _]].
Qed.

Lemma search_dirs_membership_witness :
  "b" ≠ EmptyString
  ∧ ("b" = "db"
     ∨ (enable_multi_disk (options_ two_disk_tc) = true
        ∧ "b" ∈ data_dirs (options_ two_disk_tc)))
  ∧ "b" ∈ search_dirs (options_ two_disk_tc) "db" 6.
Proof.
  assert (Hne : "b" ≠ EmptyString) by discriminate.
  assert (Hin : "b" = "db"
                ∨ (enable_multi_disk (options_ two_disk_tc) = true
                   ∧ "b" ∈ data_dirs (options_ two_disk_tc))).
  { right. split; [reflexivity|]. right. left. }
  split; [exact Hne|]. split; [exact Hin|].
  exact (proj2 (search_dirs_membership (options_ two_disk_tc) "db" 6 "b") (conj Hne Hin)).
Defined.

(** X3: with multi-directory mode on, the first directory probed is the
    alternate at index [file_number mod N], when its name is not empty; and
    two file numbers that agree modulo [N] have the same search path. *)
Theorem search_dirs_rotation
    (options_ : Options) (dbname_ : string) (file_number : N) (d : string) :
  enable_multi_disk options_ = true →
  data_dirs options_ !! N.to_nat (file_number mod N.of_nat (length (data_dirs options_)))
  = Some d →
  d ≠ EmptyString →
  head (search_dirs options_ dbname_ file_number) = Some d
  ∧ ∀ other,
      (other mod N.of_nat (length (data_dirs options_))
       = file_number mod N.of_nat (length (data_dirs options_)))%N →
      search_dirs options_ dbname_ other = search_dirs options_ dbname_ file_number.
Proof.
  intros Hon Hd Hne. split.
  - rewrite search_dirs_as_filter. unfold spec_search_path. rewrite Hon.
    destruct (data_dirs options_) as [|x l] eqn:Hdirs.
    { by rewrite lookup_nil in Hd. }
    rewrite bool_decide_eq_false_2 by done. cbn [negb andb]. cbv zeta.
    set (start := N.to_nat (file_number mod N.of_nat (length (x :: l)))) in *.
    assert (Hstart : (start < length (x :: l))%nat) by (by eapply lookup_lt_Some).
    assert (Hcirc : ∃ rest, circular_from start (x :: l) = d :: rest).
    { unfold circular_from. cbn [length seq map]. eexists. f_equal.
      rewrite Nat.add_0_r, Nat.mod_small by exact Hstart.
      by apply nth_lookup_Some. }
    destruct Hcirc as [rest ->]. cbn [drop_repeats].
    rewrite (bool_decide_eq_false_2 (d ∈ [])) by apply not_elem_of_nil.
    destruct (bool_decide _); [|rewrite <- app_comm_cons];
      by rewrite filter_cons_True.
  - intros other Hsame. unfold search_dirs. by rewrite Hsame.
Qed.

Lemma search_dirs_rotation_witness :
  enable_multi_disk (options_ two_disk_tc) = true
  ∧ data_dirs (options_ two_disk_tc)
      !! N.to_nat (7 mod N.of_nat (length (data_dirs (options_ two_disk_tc))))
    = Some "b"
  ∧ "b" ≠ EmptyString
  ∧ head (search_dirs (options_ two_disk_tc) "db" 7) = Some "b"
  ∧ search_dirs (options_ two_disk_tc) "db" 9 = search_dirs (options_ two_disk_tc) "db" 7.
Proof.
  assert (Hne : "b" ≠ EmptyString) by discriminate.
  split; [reflexivity|]. split; [reflexivity|]. split; [exact Hne|].
  destruct (search_dirs_rotation (options_ two_disk_tc) "db" 7 "b" eq_refl eq_refl Hne)
    as [Hhead Hsame].
  split; [exact Hhead|exact (Hsame 9%N eq_refl)].
Defined.

(** ** FindTable on a miss: outcome, files, attempts *)

Section MissRun.
Context (tc : TableCache) (file_number file_size : N).

Local Abbreviation key := (EncodeFixed64 file_number).
Local Abbreviation dirs := (search_dirs (options_ tc) (dbname_ tc) file_number).
Local Abbreviation outcome := (dir_outcome tc file_number file_size).
Local Abbreviation events := (dir_events tc file_number file_size).
Local Abbreviation fails := (λ dir, dir_fails tc file_number file_size dir = true).

(** The two ways a miss can end. *)
Lemma FindTable_miss_run st :
  Cache.table_ (cache_ st) !! key = None →
  (Forall fails dirs
   ∧ FindTable tc file_number file_size st
     = (Err (last_failure tc file_number file_size dirs (NotFound "table file not found")),
        emit (EvCacheLookup key :: flat_map events dirs) st))
  ∨ (∃ before dir after tf h st',
       dirs = before ++ dir :: after
       ∧ Forall fails before
       ∧ outcome dir = Ok tf
       ∧ FindTable tc file_number file_size st = (Ok h, st')
       ∧ cache_Insert key tf 1 DeleteEntry
           (emit (EvCacheLookup key :: flat_map events before ++ events dir) st)
         = (h, st')).
Proof.
  intros Hmiss. rewrite FindTable_miss by done.
  destruct (first_success_split tc file_number file_size dirs)
    as [Hall|(before & dir & after & tf & Hsplit & Hbefore & Hok)].
  - left. split; [done|]. by rewrite search_loop_all_fail, emit_emit.
  - right. rewrite Hsplit.
    rewrite search_loop_first_success with (tf := tf) by done.
    rewrite emit_emit. cbn [app].
    destruct (cache_Insert key tf 1 DeleteEntry _) as [h st'] eqn:Hins.
    by exists before, dir, after, tf, h, st'.
Qed.

Lemma dir_events_probe_calls dir : Forall (λ ev, is_probe_call ev = true) (events dir).
Proof.
  unfold dir_events.
  destruct (NewRandomAccessFile _ (TableFileName _ _)) as [f|e].
  - destruct (Table_Open _ _ f _); by repeat constructor.
  - destruct (NewRandomAccessFile _ (SSTTableFileName _ _)) as [f|e'];
      [|by repeat constructor].
    destruct (Table_Open _ _ f _); by repeat constructor.
Qed.

Lemma flat_map_probe_calls ds : Forall (λ ev, is_probe_call ev = true) (flat_map events ds).
Proof.
  induction ds as [|d ds IH]; cbn [flat_map]; [constructor|].
  apply Forall_app. split; [apply dir_events_probe_calls|exact IH].
Qed.

Lemma count_events_excluded (p q : Event → bool) calls :
  (∀ ev, q ev = true → p ev = false) →
  Forall (λ ev, q ev = true) calls →
  count_events p calls = 0.
Proof.
  intros Hpq. induction 1 as [|ev calls Hev _ IH]; [done|].
  rewrite count_events_cons, IH, (Hpq ev Hev). done.
Qed.

(** A directory that fails leaves no file open; one that succeeds leaves
    the file of its pair open. *)
Lemma dir_events_files dir :
  parsed_files (events dir)
  = deleted_files (events dir)
    ++ match outcome dir with Ok tf => [file tf] | Err _ => [] end.
Proof.
  unfold dir_events, dir_outcome, parsed_files, deleted_files.
  destruct (NewRandomAccessFile _ (TableFileName _ _)) as [f|e].
  - by destruct (Table_Open _ _ f _).
  - destruct (NewRandomAccessFile _ (SSTTableFileName _ _)) as [f|e']; [|done].
    by destruct (Table_Open _ _ f _).
Qed.

Lemma failed_dirs_files ds :
  Forall fails ds →
  parsed_files (flat_map events ds) = deleted_files (flat_map events ds).
Proof.
  induction 1 as [|d ds Hd _ IH]; [done|].
  cbn [flat_map]. unfold parsed_files, deleted_files in *.
  rewrite !omap_app, IH. f_equal.
  pose proof (dir_events_files d) as Hfiles. unfold parsed_files, deleted_files in Hfiles.
  destruct (dir_fails_Err _ _ _ _ Hd) as [e He]. rewrite He, app_nil_r in Hfiles.
  exact Hfiles.
Qed.

Lemma dir_events_opens dir : (count_events is_open (events dir) ≤ 2)%nat.
Proof.
  unfold dir_events, count_events.
  destruct (NewRandomAccessFile _ (TableFileName _ _)) as [f|e].
  - destruct (Table_Open _ _ f _); simpl; lia.
  - destruct (NewRandomAccessFile _ (SSTTableFileName _ _)) as [f|e']; [|simpl; lia].
    destruct (Table_Open _ _ f _); simpl; lia.
Qed.

Lemma flat_map_events_opens ds :
  (count_events is_open (flat_map events ds) ≤ 2 * length ds)%nat.
Proof.
  induction ds as [|d ds IH]; cbn [flat_map]; [done|].
  rewrite count_events_app. pose proof (dir_events_opens d). cbn [length]. lia.
Qed.

End MissRun.

(** X4: on a miss FindTable fails only when every directory of the search
    path fails, and then returns the failure recorded last; when it succeeds,
    the pair it caches is the one of the first directory that does not
    fail. *)
Theorem FindTable_miss_outcome
    (tc : TableCache) (file_number file_size : N) (st : State) :
  Cache.table_ (cache_ st) !! EncodeFixed64 file_number = None →
  match (FindTable tc file_number file_size st).1 with
  | Ok h =>
      ∃ before dir after,
        search_dirs (options_ tc) (dbname_ tc) file_number = before ++ dir :: after
        ∧ Forall (λ d, dir_fails tc file_number file_size d = true) before
        ∧ dir_outcome tc file_number file_size dir = Ok (Cache.Value h)
  | Err e =>
      Forall (λ d, dir_fails tc file_number file_size d = true)
             (search_dirs (options_ tc) (dbname_ tc) file_number)
      ∧ e = last_failure tc file_number file_size
              (search_dirs (options_ tc) (dbname_ tc) file_number)
              (NotFound "table file not found")
  end.
Proof.
  intros Hmiss.
  destruct (FindTable_miss_run tc file_number file_size st Hmiss)
    as [[Hall ->]|(before & dir & after & tf & h & st' & Hsplit & Hb & Hok & -> & Hins)].
  - by split.
  - cbn [fst]. exists before, dir, after. split; [done|]. split; [done|].
    destruct (cache_Insert_run (EncodeFixed64 file_number) tf
                (emit (EvCacheLookup (EncodeFixed64 file_number)
                       :: flat_map (dir_events tc file_number file_size) before
                       ++ dir_events tc file_number file_size dir) st))
      as (h' & st'' & Hrun & _ & _ & _ & Hval & _).
    rewrite Hrun in Hins. injection Hins as <- <-. by rewrite Hval.
Qed.

Lemma FindTable_miss_outcome_witness :
  Cache.table_ (cache_ (initial_state 4)) !! EncodeFixed64 6 = None
  ∧ ∃ before dir after,
      search_dirs (options_ two_disk_tc) (dbname_ two_disk_tc) 6 = before ++ dir :: after
      ∧ Forall (λ d, dir_fails two_disk_tc 6 100 d = true) before
      ∧ dir_outcome two_disk_tc 6 100 dir = Ok legacy_entry.
Proof.
  assert (Hmiss : Cache.table_ (cache_ (initial_state 4)) !! EncodeFixed64 6 = None)
    by reflexivity.
  split; [exact Hmiss|].
  exact (FindTable_miss_outcome two_disk_tc 6 100 (initial_state 4) Hmiss).
Defined.

(** X5: on a miss every file FindTable hands to the parser is deleted
    again, except the file of the pair it caches on success. When FindTable
    fails, it makes no insertion and leaves the handle cache as it was. *)
Theorem FindTable_miss_files
    (tc : TableCache) (file_number file_size : N) (st : State) :
  Cache.table_ (cache_ st) !! EncodeFixed64 file_number = None →
  ∃ calls,
    trace (FindTable tc file_number file_size st).2 = trace st ++ calls
    ∧ match (FindTable tc file_number file_size st).1 with
      | Ok h =>
          parsed_files calls = deleted_files calls ++ [file (Cache.Value h)]
          ∧ count_events is_insert calls = 1
      | Err _ =>
          parsed_files calls = deleted_files calls
          ∧ count_events is_insert calls = 0
          ∧ cache_ (FindTable tc file_number file_size st).2 = cache_ st
          ∧ reclaimed (FindTable tc file_number file_size st).2 = reclaimed st
      end.
Proof.
  intros Hmiss.
  destruct (FindTable_miss_run tc file_number file_size st Hmiss)
    as [[Hall ->]|(before & dir & after & tf & h & st' & Hsplit & Hb & Hok & -> & Hins)].
  - eexists. split; [reflexivity|]. cbn [fst snd cache_ reclaimed emit].
    split; [|split; [|done]].
    + change (parsed_files (?x :: ?l)) with (parsed_files l).
      change (deleted_files (?x :: ?l)) with (deleted_files l).
      by apply failed_dirs_files.
    + rewrite count_events_cons. cbn [is_insert].
      by rewrite (count_events_excluded is_insert is_probe_call)
        by (by intros [] || apply flat_map_probe_calls).
  - destruct (cache_Insert_run (EncodeFixed64 file_number) tf
                (emit (EvCacheLookup (EncodeFixed64 file_number)
                       :: flat_map (dir_events tc file_number file_size) before
                       ++ dir_events tc file_number file_size dir) st))
      as (h' & st'' & Hrun & Htrace & _ & _ & Hval & _).
    rewrite Hrun in Hins. injection Hins as <- <-.
    eexists. cbn [fst snd]. rewrite Htrace. cbn [trace emit].
    rewrite <- app_assoc. split; [reflexivity|].
    cbn [app]. split.
    + change (parsed_files (?x :: ?l)) with (parsed_files l).
      change (deleted_files (?x :: ?l)) with (deleted_files l).
      unfold parsed_files, deleted_files. rewrite !omap_app.
      fold (parsed_files (flat_map (dir_events tc file_number file_size) before)).
      fold (deleted_files (flat_map (dir_events tc file_number file_size) before)).
      fold (parsed_files (dir_events tc file_number file_size dir)).
      fold (deleted_files (dir_events tc file_number file_size dir)).
      rewrite (failed_dirs_files tc file_number file_size before Hb).
      rewrite (dir_events_files tc file_number file_size dir), Hok, Hval.
      cbn [omap]. by rewrite !app_nil_r, <- app_assoc.
    + rewrite count_events_cons, !count_events_app. cbn [is_insert].
      rewrite !(count_events_excluded is_insert is_probe_call)
        by (by intros [] || apply flat_map_probe_calls || apply dir_events_probe_calls).
      done.
Qed.

Lemma FindTable_miss_files_witness :
  Cache.table_ (cache_ (initial_state 4)) !! EncodeFixed64 6 = None
  ∧ ∃ calls,
      trace (FindTable two_disk_tc 6 100 (initial_state 4)).2
      = trace (initial_state 4) ++ calls
      ∧ parsed_files calls = deleted_files calls ++ [legacy_file]
      ∧ count_events is_insert calls = 1.
Proof.
  assert (Hmiss : Cache.table_ (cache_ (initial_state 4)) !! EncodeFixed64 6 = None)
    by reflexivity.
  split; [exact Hmiss|].
  destruct (FindTable_miss_files two_disk_tc 6 100 (initial_state 4) Hmiss)
    as (calls & Htrace & Hfiles).
  exists calls. split; [exact Htrace|exact Hfiles].
Defined.

(** X6: whatever the state, one call of FindTable opens at most two files
    per directory of the search path, hence at most [2 * (N + 1)] files for
    [N] configured alternates, and none on a hit. *)
Theorem FindTable_open_attempts_bounded
    (tc : TableCache) (file_number file_size : N) (st : State) :
  ∃ calls,
    trace (FindTable tc file_number file_size st).2 = trace st ++ calls
    ∧ (count_events is_open calls
       ≤ 2 * length (search_dirs (options_ tc) (dbname_ tc) file_number))%nat
    ∧ (count_events is_open calls ≤ 2 * (length (data_dirs (options_ tc)) + 1))%nat
    ∧ (is_Some (Cache.table_ (cache_ st) !! EncodeFixed64 file_number) →
       count_events is_open calls = 0).
Proof.
  assert (Hlen : (length (search_dirs (options_ tc) (dbname_ tc) file_number)
                  ≤ length (data_dirs (options_ tc)) + 1)%nat).
  { pose proof (search_dirs_length (options_ tc) (dbname_ tc) file_number) as Hl.
    destruct (enable_multi_disk (options_ tc)); lia. }
  destruct (Cache.table_ (cache_ st) !! EncodeFixed64 file_number) as [h|] eqn:Hkey.
  - rewrite FindTable_hit with (h := h) by done. eexists. split; [reflexivity|].
    change (count_events is_open [EvCacheLookup (EncodeFixed64 file_number)]) with 0.
    split; [lia|]. split; [lia|done].
  - destruct (FindTable_miss_run tc file_number file_size st Hkey)
      as [[Hall ->]|(before & dir & after & tf & h & st' & Hsplit & Hb & Hok & -> & Hins)].
    + eexists. split; [reflexivity|]. rewrite count_events_cons. cbn [is_open].
      pose proof (flat_map_events_opens tc file_number file_size
                    (search_dirs (options_ tc) (dbname_ tc) file_number)).
      split; [lia|]. split; [lia|]. by intros [? ?].
    + destruct (cache_Insert_run (EncodeFixed64 file_number) tf
                  (emit (EvCacheLookup (EncodeFixed64 file_number)
                         :: flat_map (dir_events tc file_number file_size) before
                         ++ dir_events tc file_number file_size dir) st))
        as (h' & st'' & Hrun & Htrace & _).
      rewrite Hrun in Hins. injection Hins as <- <-.
      eexists. cbn [snd]. rewrite Htrace. cbn [trace emit].
      rewrite <- app_assoc. split; [reflexivity|].
      cbn [app]. rewrite count_events_cons, !count_events_app. cbn [is_open].
      change (count_events is_open [EvCacheInsert (EncodeFixed64 file_number) 1]) with 0.
      pose proof (flat_map_events_opens tc file_number file_size before).
      pose proof (dir_events_opens tc file_number file_size dir).
      rewrite Hsplit, length_app in Hlen |- *. cbn [length] in Hlen |- *.
      split; [lia|]. split; [lia|]. by intros [? ?].
Qed.

(** X7: the expected size is not part of the cache key: once a file number
    is resolved, FindTable with any other expected size returns the same
    handle, and the cached file is not opened or parsed again. *)
Theorem FindTable_hit_ignores_size
    (tc : TableCache) (file_number file_size : N)
    (st : State) (h : Cache.Handle TableAndFile) (st1 : State) :
  FindTable tc file_number file_size st = (Ok h, st1) →
  ∀ other_size,
    ∃ st2,
      FindTable tc file_number other_size st1 = (Ok h, st2)
      ∧ trace st2 = trace st1 ++ [EvCacheLookup (EncodeFixed64 file_number)]
      ∧ reclaimed st2 = reclaimed st1.
Proof.
  intros Hfirst other_size. apply FindTable_ok_in_table in Hfirst.
  rewrite FindTable_hit with (h := h) by done. eexists. by repeat split.
Qed.

Lemma FindTable_hit_ignores_size_witness :
  FindTable two_disk_tc 6 100 (initial_state 4) = (Ok legacy_handle, resolved_state)
  ∧ ∃ st2,
      FindTable two_disk_tc 6 4096 resolved_state = (Ok legacy_handle, st2)
      ∧ trace st2 = trace resolved_state ++ [EvCacheLookup (EncodeFixed64 6)].
Proof.
  assert (Hfind : FindTable two_disk_tc 6 100 (initial_state 4)
                  = (Ok legacy_handle, resolved_state)) by reflexivity.
  split; [exact Hfind|].
  destruct (FindTable_hit_ignores_size two_disk_tc 6 100 (initial_state 4)
              legacy_handle resolved_state Hfind 4096%N) as (st2 & Hrun & Htrace & _).
  exists st2. split; [exact Hrun|exact Htrace].
Defined.

(** ** What a directory reports when a file opens but does not parse *)

(** X8: when the modern name opens and the parse fails, the directory
    fails with the failure of the parse: the file is deleted and the legacy
    name is not tried, whatever is stored under it. FindTable returns that
    failure when the directory is the last of the search path. *)
Theorem corrupt_modern_masks_legacy
    (tc : TableCache) (file_number file_size : N) (dir : string)
    (f : RandomAccessFile) (e : Failure) :
  NewRandomAccessFile (env_ tc) (TableFileName dir file_number) = Ok f →
  Table_Open (env_ tc) (options_ tc) f file_size = Err e →
  (∀ st,
     try_dir tc file_number file_size dir st
     = (Err e,
        emit [EvNewRandomAccessFile (TableFileName dir file_number);
              EvTableOpen f file_size; EvDeleteFile f] st))
  ∧ (∀ st before,
       Cache.table_ (cache_ st) !! EncodeFixed64 file_number = None →
       search_dirs (options_ tc) (dbname_ tc) file_number = before ++ [dir] →
       Forall (λ d, dir_fails tc file_number file_size d = true) before →
       (FindTable tc file_number file_size st).1 = Err e).
Proof.
  intros Hmodern Hparse.
  assert (Hout : dir_outcome tc file_number file_size dir = Err e).
  { unfold dir_outcome. by rewrite Hmodern, Hparse. }
  assert (Hev : dir_events tc file_number file_size dir
                = [EvNewRandomAccessFile (TableFileName dir file_number);
                   EvTableOpen f file_size; EvDeleteFile f]).
  { unfold dir_events. by rewrite Hmodern, Hparse. }
  split.
  - intros st. by rewrite try_dir_run, Hout, Hev.
  - intros st before Hmiss Hdirs Hbefore.
    rewrite FindTable_miss, Hdirs by done.
    rewrite search_loop_all_fail.
    + simpl. f_equal. by apply last_failure_snoc.
    + apply Forall_app. split; [done|]. constructor; [|done].
      unfold dir_fails. by rewrite Hout.
Qed.

Lemma corrupt_modern_masks_legacy_witness :
  NewRandomAccessFile (env_ masked_legacy_tc) (TableFileName "db" 7)
  = Ok {| file_name := "db/000007.ldb" |}
  ∧ Table_Open (env_ masked_legacy_tc) (options_ masked_legacy_tc)
      {| file_name := "db/000007.ldb" |} 100
    = Err (MkFailure kCorruption "db/000007.ldb")
  ∧ NewRandomAccessFile (env_ masked_legacy_tc) (SSTTableFileName "db" 7)
    = Ok {| file_name := "db/000007.sst" |}
  ∧ Table_Open (env_ masked_legacy_tc) (options_ masked_legacy_tc)
      {| file_name := "db/000007.sst" |} 100
    = Ok (sample_table {| file_name := "db/000007.sst" |})
  ∧ (FindTable masked_legacy_tc 7 100 (initial_state 4)).1
    = Err (MkFailure kCorruption "db/000007.ldb").
Proof.
  do 4 (split; [reflexivity|]).
  refine (proj2 (corrupt_modern_masks_legacy masked_legacy_tc 7 100 "db"
                   {| file_name := "db/000007.ldb" |}
                   (MkFailure kCorruption "db/000007.ldb") eq_refl eq_refl)
            (initial_state 4) [] eq_refl eq_refl _).
  constructor.
Defined.

(** X9: when the modern name does not open, the legacy name opens and the
    parse fails, the directory fails with the failure of the parse, not the
    one of the first open, and the file is deleted. *)
Theorem legacy_parse_failure_reported
    (tc : TableCache) (file_number file_size : N) (dir : string)
    (e_open : Failure) (f : RandomAccessFile) (e : Failure) :
  NewRandomAccessFile (env_ tc) (TableFileName dir file_number) = Err e_open →
  NewRandomAccessFile (env_ tc) (SSTTableFileName dir file_number) = Ok f →
  Table_Open (env_ tc) (options_ tc) f file_size = Err e →
  (∀ st,
     try_dir tc file_number file_size dir st
     = (Err e,
        emit [EvNewRandomAccessFile (TableFileName dir file_number);
              EvNewRandomAccessFile (SSTTableFileName dir file_number);
              EvTableOpen f file_size; EvDeleteFile f] st))
  ∧ (∀ st before,
       Cache.table_ (cache_ st) !! EncodeFixed64 file_number = None →
       search_dirs (options_ tc) (dbname_ tc) file_number = before ++ [dir] →
       Forall (λ d, dir_fails tc file_number file_size d = true) before →
       (FindTable tc file_number file_size st).1 = Err e).
Proof.
  intros Hmodern Hlegacy Hparse.
  assert (Hout : dir_outcome tc file_number file_size dir = Err e).
  { unfold dir_outcome. by rewrite Hmodern, Hlegacy, Hparse. }
  assert (Hev : dir_events tc file_number file_size dir
                = [EvNewRandomAccessFile (TableFileName dir file_number);
                   EvNewRandomAccessFile (SSTTableFileName dir file_number);
                   EvTableOpen f file_size; EvDeleteFile f]).
  { unfold dir_events. by rewrite Hmodern, Hlegacy, Hparse. }
  split.
  - intros st. by rewrite try_dir_run, Hout, Hev.
  - intros st before Hmiss Hdirs Hbefore.
    rewrite FindTable_miss, Hdirs by done.
    rewrite search_loop_all_fail.
    + simpl. f_equal. by apply last_failure_snoc.
    + apply Forall_app. split; [done|]. constructor; [|done].
      unfold dir_fails. by rewrite Hout.
Qed.

Lemma legacy_parse_failure_reported_witness :
  NewRandomAccessFile (env_ corrupt_legacy_tc) (TableFileName "db" 7)
  = Err (MkFailure kIOError "db/000007.ldb")
  ∧ NewRandomAccessFile (env_ corrupt_legacy_tc) (SSTTableFileName "db" 7)
    = Ok {| file_name := "db/000007.sst" |}
  ∧ Table_Open (env_ corrupt_legacy_tc) (options_ corrupt_legacy_tc)
      {| file_name := "db/000007.sst" |} 100
    = Err (MkFailure kCorruption "db/000007.sst")
  ∧ (FindTable corrupt_legacy_tc 7 100 (initial_state 4)).1
    = Err (MkFailure kCorruption "db/000007.sst").
Proof.
  do 3 (split; [reflexivity|]).
  refine (proj2 (legacy_parse_failure_reported corrupt_legacy_tc 7 100 "db"
                   (MkFailure kIOError "db/000007.ldb")
                   {| file_name := "db/000007.sst" |}
                   (MkFailure kCorruption "db/000007.sst") eq_refl eq_refl eq_refl)
            (initial_state 4) [] eq_refl eq_refl _).
  constructor.
Defined.

Lemma FindTable_open_attempts_bounded_witness :
  is_Some (Cache.table_ (cache_ resolved_state) !! EncodeFixed64 6)
  ∧ ∃ calls,
      trace (FindTable two_disk_tc 6 100 resolved_state).2 = trace resolved_state ++ calls
      ∧ count_events is_open calls = 0.
Proof.
  assert (Hhit : is_Some (Cache.table_ (cache_ resolved_state) !! EncodeFixed64 6))
    by (by exists legacy_handle).
  split; [exact Hhit|].
  destruct (FindTable_open_attempts_bounded two_disk_tc 6 100 resolved_state)
    as (calls & Htrace & _ & _ & Hnone).
  exists calls. split; [exact Htrace|exact (Hnone Hhit)].
Defined.

(** ** Get, and the entries the table cache keeps *)

Lemma FindTable_calls_shape (tc : TableCache) (file_number file_size : N) (st : State) :
  ∃ calls,
    trace (FindTable tc file_number file_size st).2
    = trace st ++ EvCacheLookup (EncodeFixed64 file_number) :: calls
    ∧ Forall (λ ev, is_probe_call ev || is_insert ev = true) calls.
Proof.
  assert (Hprobe : ∀ ds,
    Forall (λ ev, is_probe_call ev || is_insert ev = true)
           (flat_map (dir_events tc file_number file_size) ds)).
  { intros ds. eapply Forall_impl; [apply flat_map_probe_calls|].
    intros ev Hev. simpl in Hev. by rewrite Hev. }
  destruct (Cache.table_ (cache_ st) !! EncodeFixed64 file_number) as [h|] eqn:Hkey.
  - rewrite FindTable_hit with (h := h) by done. exists []. by split.
  - destruct (FindTable_miss_run tc file_number file_size st Hkey)
      as [[Hall ->]|(before & dir & after & tf & h & st' & Hsplit & Hb & Hok & -> & Hins)].
    + eexists. split; [reflexivity|]. apply Hprobe.
    + destruct (cache_Insert_run (EncodeFixed64 file_number) tf
                  (emit (EvCacheLookup (EncodeFixed64 file_number)
                         :: flat_map (dir_events tc file_number file_size) before
                         ++ dir_events tc file_number file_size dir) st))
        as (h' & st'' & Hrun & Htrace & _).
      rewrite Hrun in Hins. injection Hins as <- <-.
      eexists. cbn [snd]. rewrite Htrace. cbn [trace emit].
      rewrite <- app_assoc. split; [reflexivity|].
      repeat (apply Forall_app; split);
        [apply Hprobe| |by repeat constructor].
      eapply Forall_impl; [apply dir_events_probe_calls|].
      intros ev Hev. simpl in Hev. by rewrite Hev.
Qed.

(** X10: every call of Get looks the cache up once. When resolution
    succeeds it calls the point lookup once, releases once and returns what
    the point lookup returned; when resolution fails it calls no point
    lookup, releases nothing, hands no record to the visitor and returns the
    failure of the resolution, leaving the state as FindTable left it. *)
Theorem Get_calls_balanced
    (tc : TableCache) (options : ReadOptions) (file_number file_size : N) (k : Slice)
    (st : State) :
  ∃ calls,
    trace (Get tc options file_number file_size k st).2 = trace st ++ calls
    ∧ count_events is_lookup calls = 1
    ∧ match (FindTable tc file_number file_size st).1 with
      | Ok h =>
          count_events is_any_release calls = 1
          ∧ count_events is_internal_get calls = 1
          ∧ (Get tc options file_number file_size k st).1
            = InternalGet (table (Cache.Value h)) options k
      | Err e =>
          count_events is_any_release calls = 0
          ∧ count_events is_internal_get calls = 0
          ∧ (Get tc options file_number file_size k st).1 = (NotOK e, None)
          ∧ (Get tc options file_number file_size k st).2
            = (FindTable tc file_number file_size st).2
      end.
Proof.
  destruct (FindTable_calls_shape tc file_number file_size st) as (calls & Htrace & Hkind).
  assert (Hcount : ∀ p,
    (∀ ev, is_probe_call ev || is_insert ev = true → p ev = false) →
    count_events p calls = 0).
  { intros p Hp.
    apply (count_events_excluded p (λ ev, is_probe_call ev || is_insert ev)); done. }
  unfold Get. cbv [mbind M_bind mret M_ret table_InternalGet].
  destruct (FindTable tc file_number file_size st) as [[h|e] st1] eqn:Hfind;
    cbn [fst snd] in *.
  - destruct (InternalGet (table (Cache.Value h)) options k) as [s visited] eqn:Hget.
    rewrite cache_Release_run. cbn [fst snd trace emit]. rewrite Htrace.
    eexists. rewrite <- !app_assoc. split; [reflexivity|].
    cbn [app]. rewrite !count_events_cons, !count_events_app, !count_events_cons.
    rewrite !Hcount by (by intros []).
    by repeat split.
  - eexists. split; [exact Htrace|].
    rewrite !count_events_cons, !Hcount by (by intros []).
    by repeat split.
Qed.

Section Entries.
Context (tc : TableCache).

Lemma table_cache_entries_frame (c c' : Cache.t TableAndFile) :
  Cache.table_ c' ⊆ Cache.table_ c →
  (Cache.next_id c ≤ Cache.next_id c')%nat →
  table_cache_entries c → table_cache_entries c'.
Proof.
  intros Hsub Hnext Hinv key h Hkey.
  eapply lookup_weaken in Hkey; [|exact Hsub].
  destruct (Hinv key h Hkey) as (? & ? & ? & ? & ?). repeat split; try done. simpl. lia.
Qed.

Lemma table_cache_entries_Release (c : Cache.t TableAndFile) h :
  table_cache_entries c → table_cache_entries (Cache.Release c h).1.
Proof.
  destruct (Unref_frame c h) as [Hn Ht].
  apply table_cache_entries_frame; unfold Cache.Release; [by rewrite Ht|by rewrite Hn].
Qed.

Lemma table_cache_entries_Erase (c : Cache.t TableAndFile) key :
  table_cache_entries c → table_cache_entries (Cache.Erase c key).1.
Proof.
  destruct (Erase_frame c key) as [Hn Ht].
  apply table_cache_entries_frame; [rewrite Ht; apply delete_subseteq|by rewrite Hn].
Qed.

Lemma table_cache_entries_Insert (c : Cache.t TableAndFile) file_number tf :
  table_cache_entries c →
  table_cache_entries (Cache.Insert c (EncodeFixed64 file_number) tf 1 DeleteEntry).1.2.
Proof.
  intros Hinv. apply (table_cache_entries_Erase _ (EncodeFixed64 file_number)) in Hinv.
  unfold Cache.Insert.
  destruct (Cache.Erase c (EncodeFixed64 file_number)) as [c1 evs1].
  destruct (Cache.make_room c1 1 (Cache.lru_ c1)) as [c2 evs2] eqn:Hm.
  destruct (make_room_frame 1 (Cache.lru_ c1) c1) as [Hn2 Hsub].
  rewrite Hm in Hn2, Hsub. cbn [fst snd] in *.
  apply map_Forall_insert_2.
  - repeat split; [by exists file_number|simpl; lia].
  - intros key h Hkey. eapply lookup_weaken in Hkey; [|exact Hsub].
    destruct (Hinv key h Hkey) as (? & ? & ? & ? & ?). repeat split; try done.
    simpl. lia.
Qed.

Lemma table_cache_entries_FindTable file_number file_size st :
  table_cache_entries (cache_ st) →
  table_cache_entries (cache_ (FindTable tc file_number file_size st).2).
Proof.
  intros Hinv.
  destruct (Cache.table_ (cache_ st) !! EncodeFixed64 file_number) as [h|] eqn:Hkey.
  - by rewrite FindTable_hit with (h := h).
  - destruct (FindTable_miss_run tc file_number file_size st Hkey)
      as [[Hall ->]|(before & dir & after & tf & h & st' & Hsplit & Hb & Hok & -> & Hins)];
      [done|].
    unfold cache_Insert in Hins. cbn [cache_ emit] in Hins.
    pose proof (table_cache_entries_Insert (cache_ st) file_number tf Hinv) as Hnew.
    destruct (Cache.Insert _ _ _ _ _) as [[h' c] evs]. by injection Hins as <- <-.
Qed.

Lemma table_cache_entries_run_op st op :
  table_cache_entries (cache_ st) → table_cache_entries (cache_ (run_op tc st op)).
Proof.
  intros Hinv. destruct op as [n size|options n size|options n size k|n|h]; cbn [run_op].
  - by apply table_cache_entries_FindTable.
  - apply (table_cache_entries_FindTable n size) in Hinv.
    unfold NewIterator. cbv [mbind M_bind mret M_ret table_NewIterator].
    by destruct (FindTable tc n size st) as [[h|e] st1].
  - apply (table_cache_entries_FindTable n size) in Hinv.
    unfold Get. cbv [mbind M_bind mret M_ret table_InternalGet].
    destruct (FindTable tc n size st) as [[h|e] st1]; [|done].
    destruct (InternalGet _ options k) as [s visited].
    rewrite cache_Release_run. by apply table_cache_entries_Release.
  - rewrite Evict_run. by apply table_cache_entries_Erase.
  - rewrite cache_Release_run. by apply table_cache_entries_Release.
Qed.

End Entries.

(** X11: after any run of FindTable, NewIterator, Get, Evict and handle
    releases on a new table cache, every entry of the handle cache is stored
    under the 8-byte key of a file number, which it carries, with charge 1
    and [DeleteEntry] as its destructor. *)
Theorem table_cache_entries_invariant (tc : TableCache) (entries : nat) (ops : list Op) :
  table_cache_entries (cache_ (run_ops tc ops (initial_state entries)))
  ∧ ∀ key h,
      Cache.table_ (cache_ (run_ops tc ops (initial_state entries))) !! key = Some h →
      String.length key = 8
      ∧ Cache.handle_key h = key
      ∧ Cache.handle_charge h = 1
      ∧ Cache.handle_deleter h = DeleteEntry.
Proof.
  assert (Hinv : table_cache_entries (cache_ (run_ops tc ops (initial_state entries)))).
  { unfold run_ops.
    assert (Hinit : table_cache_entries (cache_ (initial_state entries)))
      by apply map_Forall_empty.
    revert Hinit. generalize (initial_state entries).
    induction ops as [|op ops IH]; intros st Hst; [done|].
    cbn [fold_left]. apply IH. by apply table_cache_entries_run_op. }
  split; [exact Hinv|].
  intros key h Hkey. destruct (Hinv key h Hkey) as (Hk & [n ->] & Hc & Hd & _).
  by repeat split.
Qed.

Lemma table_cache_entries_invariant_witness :
  Cache.table_
    (cache_ (run_ops two_disk_tc
               [OpGet default_read_options 6 100 "k1"; OpFindTable 6 100]
               (initial_state 4)))
    !! EncodeFixed64 6 = Some legacy_handle
  ∧ String.length (EncodeFixed64 6) = 8
  ∧ Cache.handle_charge legacy_handle = 1
  ∧ Cache.handle_deleter legacy_handle = DeleteEntry.
Proof.
  assert (Hkey : Cache.table_
    (cache_ (run_ops two_disk_tc
               [OpGet default_read_options 6 100 "k1"; OpFindTable 6 100]
               (initial_state 4)))
    !! EncodeFixed64 6 = Some legacy_handle) by reflexivity.
  split; [exact Hkey|].
  destruct (proj2 (table_cache_entries_invariant two_disk_tc 4
                     [OpGet default_read_options 6 100 "k1"; OpFindTable 6 100])
              _ _ Hkey) as (Hlen & _ & Hcharge & Hdel).
  split; [exact Hlen|]. split; [exact Hcharge|exact Hdel].
Defined.

(** X12: an iterator made for a table that was not cached keeps the table
    usable across Evict: evicting the file number while the iterator lives
    destroys nothing, and destroying the iterator afterwards, after any number
    of steps, deletes the table and then the file, once. *)
Theorem iterator_outlives_Evict
    (tc : TableCache) (options : ReadOptions) (file_number file_size : N)
    (st : State) (h : Cache.Handle TableAndFile) (st1 : State) :
  Cache.table_ (cache_ st) !! EncodeFixed64 file_number = None →
  FindTable tc file_number file_size st = (Ok h, st1) →
  ∃ it st2,
    NewIterator tc options file_number file_size st
    = (it, Some (table (Cache.Value h)), st2)
    ∧ reclaimed (Evict file_number st2).2 = reclaimed st2
    ∧ ∀ consumed,
        reclaimed (DeleteIterator (Nat.iter consumed Next it) (Evict file_number st2).2).2
        = reclaimed st2
          ++ [EvDeleteTable (table (Cache.Value h)); EvDeleteFile (file (Cache.Value h))].
Proof.
  intros Hmiss Hfind.
  destruct (FindTable_miss_run tc file_number file_size st Hmiss)
    as [[_ Hfail]|(before & dir & after & tf & h' & st' & _ & _ & _ & Hrun & Hins)];
    [by rewrite Hfail in Hfind|].
  rewrite Hrun in Hfind. injection Hfind as Hh Hst. subst h' st'.
  destruct (cache_Insert_run (EncodeFixed64 file_number) tf
              (emit (EvCacheLookup (EncodeFixed64 file_number)
                     :: flat_map (dir_events tc file_number file_size) before
                     ++ dir_events tc file_number file_size dir) st))
    as (h' & st'' & Hrun' & _ & _ & Hkey & Hval & _ & Hdel & Htab & Hrefs).
  rewrite Hrun' in Hins. injection Hins as Hh Hst. subst h' st''.
  unfold NewIterator. cbv [mbind M_bind mret M_ret table_NewIterator]. rewrite Hrun.
  eexists _, _. split; [reflexivity|].
  rewrite Evict_run. cbn [snd cache_ trace reclaimed emit].
  assert (Herase : (Cache.Erase (cache_ st1) (EncodeFixed64 file_number)).2 = []
                   ∧ Cache.refs_ (Cache.Erase (cache_ st1) (EncodeFixed64 file_number)).1
                       !! Cache.handle_id h = Some 1).
  { unfold Cache.Erase. rewrite Htab. unfold Cache.FinishErase. by apply Unref_shared. }
  destruct Herase as [Hevs Hone].
  rewrite Hevs, app_nil_r. split; [done|].
  intros consumed. unfold DeleteIterator. rewrite iter_cleanup_Next.
  cbn [iter_cleanup RegisterCleanup app run_cleanups]. cbv [mbind M_bind mret M_ret].
  unfold UnrefEntry. rewrite cache_Release_run. cbn [snd cache_ reclaimed].
  unfold Cache.Release. destruct (Unref_last _ _ Hone) as [-> _].
  by rewrite Hdel, Hkey.
Qed.

Lemma iterator_outlives_Evict_witness :
  Cache.table_ (cache_ (initial_state 4)) !! EncodeFixed64 6 = None
  ∧ FindTable two_disk_tc 6 100 (initial_state 4) = (Ok legacy_handle, resolved_state)
  ∧ ∃ it st2,
      NewIterator two_disk_tc default_read_options 6 100 (initial_state 4)
      = (it, Some (sample_table legacy_file), st2)
      ∧ reclaimed (Evict 6 st2).2 = reclaimed st2
      ∧ reclaimed (DeleteIterator (Next it) (Evict 6 st2).2).2
        = reclaimed st2 ++ [EvDeleteTable (sample_table legacy_file); EvDeleteFile legacy_file].
Proof.
  assert (Hmiss : Cache.table_ (cache_ (initial_state 4)) !! EncodeFixed64 6 = None)
    by reflexivity.
  assert (Hfind : FindTable two_disk_tc 6 100 (initial_state 4)
                  = (Ok legacy_handle, resolved_state)) by reflexivity.
  split; [exact Hmiss|]. split; [exact Hfind|].
  destruct (iterator_outlives_Evict two_disk_tc default_read_options 6 100
              (initial_state 4) legacy_handle resolved_state Hmiss Hfind)
    as (it & st2 & Hrun & Hkept & Hdestroyed).
  exists it, st2. split; [exact Hrun|]. split; [exact Hkept|exact (Hdestroyed 1)].
Defined.

(** ** The smoke test: EndsWith and the move of the table files *)

Lemma substring_empty (s : string) (k : nat) : substring k 0 s = EmptyString.
Proof. revert k. induction s as [|a s IH]; intros [|k]; simpl; auto. Qed.

Lemma substring_all (t : string) : substring 0 (String.length t) t = t.
Proof. induction t as [|a t IH]; simpl; [done|by rewrite IH]. Qed.

Lemma substring_append_skip (p t : string) (n : nat) :
  substring (String.length p) n (p +:+ t) = substring 0 n t.
Proof. induction p as [|a p IH]; simpl; [done|exact IH]. Qed.

Lemma string_length_append (p t : string) :
  String.length (p +:+ t) = String.length p + String.length t.
Proof. induction p as [|a p IH]; simpl; [done|by rewrite IH]. Qed.

Lemma substring_split (s : string) : ∀ k,
  (k ≤ String.length s)%nat →
  s = substring 0 k s +:+ substring k (String.length s - k) s.
Proof.
  induction s as [|a s IH]; intros [|k] Hk; simpl in *; try lia; try done.
  - by rewrite substring_all.
  - change (String a ?x +:+ ?y) with (String a (x +:+ y)). f_equal. apply IH. lia.
Qed.

(** X13: [EndsWith s suffix] holds exactly when [s] is some prefix followed
    by [suffix]; in particular every string ends with the empty suffix and a
    string shorter than the suffix never does. *)
Theorem EndsWith_iff_suffix (s suffix : string) :
  EndsWith s suffix = true ↔ ∃ prefix, s = prefix +:+ suffix.
Proof.
  unfold EndsWith. rewrite andb_true_iff, Nat.leb_le, String.eqb_eq. split.
  - intros [Hlen Hsub].
    exists (substring 0 (String.length s - String.length suffix) s).
    pose proof (substring_split s (String.length s - String.length suffix)) as Hsplit.
    replace (String.length s - (String.length s - String.length suffix))
      with (String.length suffix) in Hsplit by lia.
    rewrite Hsub in Hsplit. apply Hsplit. lia.
  - intros [prefix ->]. rewrite string_length_append. split; [lia|].
    replace (String.length prefix + String.length suffix - String.length suffix)
      with (String.length prefix) by lia.
    by rewrite substring_append_skip, substring_all.
Qed.

Lemma EndsWith_iff_suffix_witness :
  (∃ prefix, "000005.ldb" = prefix +:+ ".ldb")
  ∧ EndsWith "000005.ldb" ".ldb" = true.
Proof.
  assert (Hsuffix : ∃ prefix, "000005.ldb" = prefix +:+ ".ldb")
    by (by exists "000005").
  split; [exact Hsuffix|].
  exact (proj2 (EndsWith_iff_suffix "000005.ldb" ".ldb") Hsuffix).
Defined.

Section MoveTables.
Context (RenameFile : string → string → Status) (meta d0 d1 : string).

Local Abbreviation is_table :=
  (λ f : string, EndsWith f ".ldb" || EndsWith f ".sst").
Local Abbreviation dst_dir := (λ i : nat, if Nat.eqb (i mod 2) 0 then d0 else d1).
Local Abbreviation step := (move_step RenameFile meta d0 d1).

Local Abbreviation moved_so_far := (moved_so_far RenameFile meta d0 d1).

Lemma moved_so_far_weaken files files' st :
  (∀ f, f ∈ files → f ∈ files') → moved_so_far files st → moved_so_far files' st.
Proof.
  intros Hsub [Hlen Hall]. split; [done|].
  intros i src dst Hi. destruct (Hall i src dst Hi) as (f & Hf & Hrest).
  exists f. split; [by apply Hsub|done].
Qed.

Lemma move_step_keeps files st f :
  moved_so_far files st → moved_so_far (files ++ [f]) (step st f).
Proof.
  intros Hst.
  assert (Hold : moved_so_far (files ++ [f]) st).
  { eapply moved_so_far_weaken; [|exact Hst]. intros x Hx. apply elem_of_app. by left. }
  destruct st as [moved renamed]. unfold move_step.
  destruct (is_table f) eqn:Htable; cbn [negb]; [|exact Hold].
  destruct (ok (RenameFile _ _)) eqn:Hok; [|exact Hold].
  destruct Hst as [Hlen Hall]. cbn [fst snd] in *. subst moved. split.
  - cbn [fst snd]. rewrite length_app. simpl. lia.
  - intros i src dst Hi. cbn [snd] in Hi.
    apply lookup_app_Some in Hi as [Hi|[Hge Hi]].
    + destruct (Hall i src dst Hi) as (x & Hx & Hrest).
      exists x. split; [apply elem_of_app; by left|done].
    + apply list_lookup_singleton_Some in Hi as [Hi0 Heq].
      injection Heq as <- <-.
      assert (i = length renamed) as -> by lia.
      exists f. split; [apply elem_of_app; right; by apply list_elem_of_singleton|].
      by repeat split.
Qed.

Lemma move_fold_keeps files : ∀ done_files st,
  moved_so_far done_files st →
  moved_so_far (done_files ++ files) (fold_left step files st).
Proof.
  induction files as [|f files IH]; intros done_files st Hst; cbn [fold_left].
  - by rewrite app_nil_r.
  - replace (done_files ++ f :: files) with ((done_files ++ [f]) ++ files)
      by (by rewrite <- app_assoc).
    apply IH. by apply move_step_keeps.
Qed.

Lemma move_fold_all_ok files : ∀ moved renamed,
  (∀ src dst, ok (RenameFile src dst) = true) →
  moved = length renamed →
  fold_left step files (moved, renamed)
  = (moved + length (List.filter is_table files),
     renamed
     ++ imap (λ i f, (meta +:+ "/" +:+ f, dst_dir (moved + i) +:+ "/" +:+ f))
          (List.filter is_table files)).
Proof.
  induction files as [|f files IH]; intros moved renamed Hok Hlen; cbn [fold_left].
  - simpl. by rewrite Nat.add_0_r, app_nil_r.
  - cbn [List.filter]. unfold move_step at 2.
    destruct (is_table f) eqn:Htable; cbn [negb].
    + rewrite Hok. rewrite IH; [|done|rewrite length_app; simpl; lia].
      cbn [length imap]. rewrite Nat.add_0_r, <- app_assoc. cbn [app].
      f_equal; [lia|]. f_equal. f_equal.
      apply imap_ext. intros i x _. unfold compose.
      by replace (moved + S i) with (S moved + i) by lia.
    + by apply IH.
Qed.

End MoveTables.

(** X14: in the move loop of the smoke test the counter [moved] is the
    number of renames that succeeded; the rename number [i] (from 0) moves a
    listed file whose name ends in ".ldb" or ".sst" from the meta directory
    to the first data directory when [i] is even and to the second when [i]
    is odd, under the same file name; a rename that fails does not advance
    the alternation. *)
Theorem move_tables_alternates
    (RenameFile : string → string → Status) (meta d0 d1 : string)
    (meta_files : list string) :
  let '(moved, renamed) := move_tables RenameFile meta d0 d1 meta_files in
  moved = length renamed
  ∧ ∀ i src dst,
      renamed !! i = Some (src, dst) →
      ∃ f, f ∈ meta_files
           ∧ (EndsWith f ".ldb" || EndsWith f ".sst") = true
           ∧ src = meta +:+ "/" +:+ f
           ∧ dst = (if Nat.eqb (i mod 2) 0 then d0 else d1) +:+ "/" +:+ f
           ∧ ok (RenameFile src dst) = true.
Proof.
  pose proof (move_fold_keeps RenameFile meta d0 d1 meta_files [] (0, [])) as Hinv.
  unfold move_tables.
  destruct (fold_left _ meta_files (0, [])) as [moved renamed].
  apply Hinv. split; [done|]. intros i src dst Hi. cbn [snd] in Hi.
  by rewrite lookup_nil in Hi.
Qed.

Lemma move_tables_alternates_witness :
  move_tables (rename_unless "d1/b") "meta" "d0" "d1"
    ["000005.ldb"; "MANIFEST-000002"; "b.sst"; "000007.sst"; "LOG"]
  = (2, [("meta/000005.ldb", "d0/000005.ldb"); ("meta/000007.sst", "d1/000007.sst")])
  ∧ ∃ f, f ∈ ["000005.ldb"; "MANIFEST-000002"; "b.sst"; "000007.sst"; "LOG"]
         ∧ "d1/000007.sst" = "d1" +:+ "/" +:+ f.
Proof.
  split; [reflexivity|].
  pose proof (move_tables_alternates (rename_unless "d1/b") "meta" "d0" "d1"
                ["000005.ldb"; "MANIFEST-000002"; "b.sst"; "000007.sst"; "LOG"]) as Hmove.
  destruct (proj2 Hmove 1 "meta/000007.sst" "d1/000007.sst" eq_refl)
    as (f & Hf & _ & _ & Hdst & _).
  exists f. split; [exact Hf|exact Hdst].
Defined.

(** X15: when no rename fails, the move loop renames exactly the listed
    files whose name ends in ".ldb" or ".sst", in order, alternating between
    the two data directories from the first one; [moved] is their number, so
    the test gives up for lack of tables exactly when no listed name has such
    an ending. *)
Theorem move_tables_all_renamed
    (RenameFile : string → string → Status) (meta d0 d1 : string)
    (meta_files : list string) :
  (∀ src dst, ok (RenameFile src dst) = true) →
  let tables := List.filter (λ f, EndsWith f ".ldb" || EndsWith f ".sst") meta_files in
  move_tables RenameFile meta d0 d1 meta_files
  = (length tables,
     imap (λ i f, (meta +:+ "/" +:+ f,
                   (if Nat.eqb (i mod 2) 0 then d0 else d1) +:+ "/" +:+ f)) tables)
  ∧ ((move_tables RenameFile meta d0 d1 meta_files).1 = 0 ↔ tables = []).
Proof.
  intros Hok tables.
  assert (Hrun : move_tables RenameFile meta d0 d1 meta_files
    = (length tables,
       imap (λ i f, (meta +:+ "/" +:+ f,
                     (if Nat.eqb (i mod 2) 0 then d0 else d1) +:+ "/" +:+ f)) tables)).
  { unfold move_tables.
    by rewrite (move_fold_all_ok RenameFile meta d0 d1 meta_files 0 []). }
  split; [exact Hrun|]. rewrite Hrun. cbn [fst].
  split; [apply nil_length_inv|by intros ->].
Qed.

Lemma move_tables_all_renamed_witness :
  (∀ src dst, ok (rename_ok src dst) = true)
  ∧ move_tables rename_ok "meta" "d0" "d1"
      ["000005.ldb"; "CURRENT"; "000007.ldb"; "000009.sst"]
    = (3, [("meta/000005.ldb", "d0/000005.ldb"); ("meta/000007.ldb", "d1/000007.ldb");
           ("meta/000009.sst", "d0/000009.sst")]).
Proof.
  assert (Hok : ∀ src dst : string, ok (rename_ok src dst) = true) by reflexivity.
  split; [exact Hok|].
  exact (proj1 (move_tables_all_renamed rename_ok "meta" "d0" "d1"
                  ["000005.ldb"; "CURRENT"; "000007.ldb"; "000009.sst"] Hok)).
Defined.

